(** * Tic Tac Toe console game: a shallow embedding of
      [src/examples/tic_tac_toe.cpp] and the properties of its
      specification.

    The C++ class [TicTacToe] owns a [std::array<char, 9>] board and a
    [char] current player; its methods read and write these two fields,
    read lines from [std::cin] and write text to [std::cout].  The
    embedding keeps this shape: the object is a record, the console is a
    pair of an input (the lines still to be read) and the text printed so
    far, and every method is a computation in a small state monad whose
    results also cover [std::exit] and an out-of-bounds array access.

    The input is a finite list of lines: a session then always ends, at
    the latest when [std::getline] finds no line.  The loop of [run] is
    unrolled under a bound on its turns, and the bound [enough_fuel] is
    shown to be never reached.  An input that never ends is outside the
    model. *)

From Stdlib Require Import ZArith Ascii String Bool Lia.
From stdpp Require Import list strings.

Local Open Scope string_scope.
Local Open Scope list_scope.
Local Open Scope Z_scope.

(** ** Characters *)

(** The three values a cell takes once the game is reset. *)
Definition EMPTY : ascii := " "%char.
Definition MARK_X : ascii := "X"%char.
Definition MARK_O : ascii := "O"%char.

(** [std::endl] writes a line feed (and flushes, which is not observable
    here). *)
Definition endl : string := String (ascii_of_N 10) EmptyString.

(** [static_cast<char>(n)] of an [int]: the low eight bits. *)
Definition char_of_int (n : Z) : ascii := ascii_of_N (Z.to_N (n mod 256)).

(** Integral promotion of a [char] in the ASCII range. *)
Definition int_of_char (c : ascii) : Z := Z.of_N (N_of_ascii c).

(** ** The object and the console *)

Record TicTacToe : Type := mkTicTacToe {
  board_ : list ascii;          (* std::array<char, 9> board_ *)
  current_player_ : ascii       (* char current_player_ *)
}.

(** Ghost record of what a session did, in program order.  It is not part
    of the program's state: it only names the points of [run] and of the
    two mutators that the temporal properties speak about. *)
Inductive event : Type :=
| EvMark (player : ascii) (index : Z)   (* board_[index] = current_player_ *)
| EvWinCheck (won : bool)               (* has_winner() evaluated in run *)
| EvDrawCheck (full : bool)             (* is_draw() evaluated in run *)
| EvSwap                                (* swap_player() *)
| EvAnnounceWin (player : ascii)        (* "Player <p> wins!" *)
| EvAnnounceDraw.                       (* "It's a draw!" *)

Record World : Type := mkWorld {
  game : TicTacToe;
  cin : list string;            (* the lines std::getline will still deliver *)
  cout : string;                (* everything written to std::cout so far *)
  log : list event              (* ghost *)
}.

(** The size of the array is part of its type. *)
Definition BOARD_SIZE : Z := 9.

Definition well_formed (w : World) : Prop :=
  length (board_ (game w)) = 9%nat.

(** ** The monad of the methods *)

Inductive result (A : Type) : Type :=
| Ok (a : A) (w : World)          (* the call returned [a] *)
| Exited (code : Z) (w : World)   (* std::exit(code) was called *)
| Undefined                       (* an array access out of bounds *)
| OutOfFuel.                      (* the loop bound of the model was reached *)

Arguments Ok {A} a w.
Arguments Exited {A} code w.
Arguments Undefined {A}.
Arguments OutOfFuel {A}.

Definition M (A : Type) : Type := World -> result A.

Definition ret {A} (a : A) : M A := fun w => Ok a w.

Definition bind {A B} (m : M A) (f : A -> M B) : M B :=
  fun w =>
    match m w with
    | Ok a w' => f a w'
    | Exited code w' => Exited code w'
    | Undefined => Undefined
    | OutOfFuel => OutOfFuel
    end.

Notation "x <- m ;; k" := (bind m (fun x => k))
  (at level 100, m at next level, right associativity).
Notation "m ;; k" := (bind m (fun _ => k))
  (at level 100, right associativity).

(** *** Primitive accesses *)

Definition in_bounds (i : Z) : bool := (0 <=? i) && (i <? BOARD_SIZE).

(** [board_[i]] as an rvalue.  [std::array::operator[]] is unchecked: an
    index outside [0, 9) is undefined behaviour. *)
Definition read_board (i : Z) : M ascii :=
  fun w =>
    if in_bounds i then
      match board_ (game w) !! Z.to_nat i with
      | Some c => Ok c w
      | None => Undefined
      end
    else Undefined.

Definition set_board (b : list ascii) (w : World) : World :=
  mkWorld (mkTicTacToe b (current_player_ (game w))) (cin w) (cout w) (log w).

Definition set_current_player (p : ascii) (w : World) : World :=
  mkWorld (mkTicTacToe (board_ (game w)) p) (cin w) (cout w) (log w).

Definition add_cout (s : string) (w : World) : World :=
  mkWorld (game w) (cin w) (cout w +:+ s) (log w).

Definition add_log (e : event) (w : World) : World :=
  mkWorld (game w) (cin w) (cout w) (log w ++ [e]).

(** [board_[i] = c]. *)
Definition write_board (i : Z) (c : ascii) : M unit :=
  fun w =>
    if in_bounds i && (Z.to_nat i <? length (board_ (game w)))%nat then
      Ok tt (set_board (<[Z.to_nat i := c]> (board_ (game w))) w)
    else Undefined.

Definition read_current_player : M ascii :=
  fun w => Ok (current_player_ (game w)) w.

Definition write_current_player (p : ascii) : M unit :=
  fun w => Ok tt (set_current_player p w).

(** [std::cout << s]. *)
Definition print (s : string) : M unit := fun w => Ok tt (add_cout s w).

Definition print_char (c : ascii) : M unit :=
  print (String c EmptyString).

(** [std::getline(std::cin, line)]: the next line, or failure when the
    stream is exhausted. *)
Definition getline : M (option string) :=
  fun w =>
    match cin w with
    | [] => Ok None w
    | line :: rest => Ok (Some line) (mkWorld (game w) rest (cout w) (log w))
    end.

Definition exit {A} (code : Z) : M A := fun w => Exited code w.

Definition note (e : event) : M unit := fun w => Ok tt (add_log e w).

(** ** Methods of the class *)

(** [board_.fill(c)]: every one of the nine elements becomes [c]. *)
Definition fill_board (c : ascii) : M unit :=
  fun w => Ok tt (set_board (replicate 9 c) w).

(** [reset()], lines 34-37. *)
Definition reset : M unit :=
  fill_board EMPTY ;;
  write_current_player MARK_X.

(** [place_mark(position)], lines 79-89. *)
Definition place_mark (position : Z) : M bool :=
  if (position <? 1) || (position >? 9) then ret false
  else
    let index := position - 1 in
    cell <- read_board index ;;
    if negb (Ascii.eqb cell EMPTY) then ret false
    else
      player <- read_current_player ;;
      write_board index player ;;
      note (EvMark player index) ;;
      ret true.

(** The table [wins] of [has_winner()], lines 92-96. *)
Definition wins : list (Z * Z * Z) :=
  [ (0, 1, 2); (3, 4, 5); (6, 7, 8);
    (0, 3, 6); (1, 4, 7); (2, 5, 8);
    (0, 4, 8); (2, 4, 6) ].

(** The range-for of [has_winner()], lines 98-106, from the line it has
    reached. *)
Fixpoint has_winner_from (lines : list (Z * Z * Z)) : M bool :=
  match lines with
  | [] => ret false
  | (l0, l1, l2) :: rest =>
      a <- read_board l0 ;;
      b <- read_board l1 ;;
      c <- read_board l2 ;;
      if negb (Ascii.eqb a EMPTY) && Ascii.eqb a b && Ascii.eqb b c
      then ret true
      else has_winner_from rest
  end.

(** [has_winner()], lines 91-107. *)
Definition has_winner : M bool := has_winner_from wins.

(** The range-for of [is_draw()], lines 110-115, over the cells left. *)
Fixpoint is_draw_from (cells : list ascii) : M bool :=
  match cells with
  | [] => ret true
  | cell :: rest =>
      if Ascii.eqb cell EMPTY then ret false else is_draw_from rest
  end.

(** [is_draw()], lines 109-116. *)
Definition is_draw : M bool :=
  fun w => is_draw_from (board_ (game w)) w.

(** [swap_player()], lines 118-120. *)
Definition swap_player : M unit :=
  player <- read_current_player ;;
  write_current_player (if Ascii.eqb player MARK_X then MARK_O else MARK_X) ;;
  note EvSwap.

(** [for (int i = first; i < first + count; ++i) body(i)]. *)
Fixpoint for_range (first : Z) (count : nat) (body : Z -> M unit) : M unit :=
  match count with
  | O => ret tt
  | S count' => body first ;; for_range (first + 1) count' body
  end.

(** [draw_board()], lines 39-57. *)
Definition draw_board : M unit :=
  print endl ;;
  for_range 0 3 (fun row =>
    for_range 0 3 (fun col =>
      let index := row * 3 + col in
      cell <- read_board index ;;
      let display :=
        if Ascii.eqb cell EMPTY
        then char_of_int (int_of_char "1" + index)
        else cell in
      print " " ;; print_char display ;; print " " ;;
      if col <? 2 then print "|" else ret tt) ;;
    print endl ;;
    if row <? 2 then print "-----------" ;; print endl else ret tt) ;;
  print endl.

(** ** [std::stoi]

    The standard library function, as ISO C++ defines it through
    [std::strtol] in base 10 and the "C" locale: leading white space is
    skipped, one sign is accepted, then the longest run of decimal digits
    is converted; what follows the digits is ignored.  No digit at all
    throws [std::invalid_argument]; a value that does not fit [int]
    throws [std::out_of_range]. *)

Definition INT_MIN : Z := - 2 ^ 31.
Definition INT_MAX : Z := 2 ^ 31 - 1.

Inductive stoi_result : Type :=
| stoi_value (n : Z)
| stoi_invalid_argument
| stoi_out_of_range.

Definition isspace (c : ascii) : bool :=
  let n := int_of_char c in (n =? 32) || ((9 <=? n) && (n <=? 13)).

Definition isdigit (c : ascii) : bool :=
  let n := int_of_char c in (48 <=? n) && (n <=? 57).

Fixpoint skip_spaces (s : string) : string :=
  match s with
  | String c rest => if isspace c then skip_spaces rest else s
  | EmptyString => s
  end.

(** The value of the leading digits of [s] after the digits already
    folded into [acc]. *)
Fixpoint read_digits (acc : Z) (s : string) : Z :=
  match s with
  | String c rest =>
      if isdigit c then read_digits (acc * 10 + (int_of_char c - 48)) rest
      else acc
  | EmptyString => acc
  end.

Definition starts_with_digit (s : string) : bool :=
  match s with
  | String c _ => isdigit c
  | EmptyString => false
  end.

Definition stoi (str : string) : stoi_result :=
  let s := skip_spaces str in
  let (negative, digits) :=
    match s with
    | String "-" rest => (true, rest)
    | String "+" rest => (false, rest)
    | _ => (false, s)
    end in
  if starts_with_digit digits then
    let magnitude := read_digits 0 digits in
    let value := if negative then - magnitude else magnitude in
    if (INT_MIN <=? value) && (value <=? INT_MAX) then stoi_value value
    else stoi_out_of_range
  else stoi_invalid_argument.

(** ** Input and the main loop *)

Definition MSG_PARSE : string := "Please enter a number between 1 and 9.".
Definition MSG_INVALID : string := "Invalid move. Try again.".
Definition MSG_CLOSED : string := "Input stream closed. Exiting.".
Definition MSG_WELCOME : string :=
  "Welcome to Tic Tac Toe! Players are X and O.".
Definition MSG_DRAW : string := "It's a draw!".

Definition prompt_text (player : ascii) : string :=
  "Player " +:+ String player ", choose a square (1-9): ".

Definition win_text (player : ascii) : string :=
  "Player " +:+ String player " wins!".

(** [prompt_move()], lines 59-77.  Both exceptions of [std::stoi] derive
    from [std::exception] and are caught by the one handler. *)
Definition prompt_move : M bool :=
  player <- read_current_player ;;
  print (prompt_text player) ;;
  line <- getline ;;
  match line with
  | None => print MSG_CLOSED ;; print endl ;; exit 0
  | Some line =>
      match stoi line with
      | stoi_value choice =>
          placed <- place_mark choice ;;
          if placed then ret true
          else print MSG_INVALID ;; print endl ;; ret false
      | stoi_invalid_argument | stoi_out_of_range =>
          print MSG_PARSE ;; print endl ;; ret false
      end
  end.

(** The [while (true)] of [run()], lines 11-30.  Each [fuel] pays for one
    iteration; [continue] and the fall through to the next iteration are
    the recursive calls, [break] is the return. *)
Fixpoint run_loop (fuel : nat) : M unit :=
  match fuel with
  | O => fun _ => OutOfFuel
  | S fuel' =>
      draw_board ;;
      moved <- prompt_move ;;
      if negb moved then run_loop fuel'
      else
        won <- has_winner ;;
        note (EvWinCheck won) ;;
        if won then
          draw_board ;;
          player <- read_current_player ;;
          print (win_text player) ;; print endl ;;
          note (EvAnnounceWin player)
        else
          full <- is_draw ;;
          note (EvDrawCheck full) ;;
          if full then
            draw_board ;;
            print MSG_DRAW ;; print endl ;;
            note EvAnnounceDraw
          else
            swap_player ;;
            run_loop fuel'
  end.

(** [run()], lines 7-31. *)
Definition run (fuel : nat) : M unit :=
  reset ;;
  print MSG_WELCOME ;; print endl ;;
  run_loop fuel.

(** The object as its default member initialisers leave it: the array
    value-initialised to nine zero characters, the player ['X']. *)
Definition fresh_game : TicTacToe :=
  mkTicTacToe (replicate 9 (ascii_of_N 0)) MARK_X.

Definition initial_world (input : list string) : World :=
  mkWorld fresh_game input "" [].

(** [main()], lines 126-130: the value is the exit status of the
    process. *)
Definition main (fuel : nat) : M Z :=
  run fuel ;;
  ret 0.

(** One iteration needs at most one line, and the iteration that finds no
    line exits. *)
Definition enough_fuel (input : list string) : nat := S (length input).

Definition exit_status {A} (r : result A) (returned : A -> Z) : option Z :=
  match r with
  | Ok a _ => Some (returned a)
  | Exited code _ => Some code
  | Undefined | OutOfFuel => None
  end.

Definition final_world {A} (r : result A) : option World :=
  match r with
  | Ok _ w | Exited _ w => Some w
  | Undefined | OutOfFuel => None
  end.

(** ** Vocabulary of the properties *)

(** The world after an accepted move on [index]. *)
Definition marked (index : Z) (w : World) : World :=
  add_log (EvMark (current_player_ (game w)) index)
    (set_board (<[Z.to_nat index := current_player_ (game w)]> (board_ (game w))) w).

(** The positions [place_mark] turns down: below 1, above 9, or on a cell
    that is not empty. *)
Definition rejected (w : World) (position : Z) : Prop :=
  position < 1 \/ position > 9 \/
  exists cell,
    board_ (game w) !! Z.to_nat (position - 1) = Some cell /\ cell <> EMPTY.

(** The board after [reset()], with ['X'] to move and nothing read or
    printed yet. *)
Definition reset_world (input : list string) : World :=
  mkWorld (mkTicTacToe (replicate 9 EMPTY) MARK_X) input "" [].


(** The content of cell [i] of an array ([None] outside it). *)
Definition cell_of (b : list ascii) (i : Z) : option ascii :=
  if in_bounds i then b !! Z.to_nat i else None.

(** Cells [i], [j] and [k] hold three equal marks, none of them empty. *)
Definition aligned (b : list ascii) (i j k : Z) : Prop :=
  exists mark,
    mark <> EMPTY /\
    cell_of b i = Some mark /\ cell_of b j = Some mark /\ cell_of b k = Some mark.

(** One of the eight lines of the grid is aligned: row [r] is the cells
    [3r, 3r+1, 3r+2], column [c] the cells [c, c+3, c+6], and the two
    diagonals run through the centre 4. *)
Definition some_line_aligned (b : list ascii) : Prop :=
  (exists r, 0 <= r < 3 /\ aligned b (3 * r) (3 * r + 1) (3 * r + 2)) \/
  (exists c, 0 <= c < 3 /\ aligned b c (c + 3) (c + 6)) \/
  aligned b 0 4 8 \/
  aligned b 2 4 6.

(** What one turn of the loop of [has_winner] decides for a line. *)
Definition line_won (b : list ascii) (line : Z * Z * Z) : bool :=
  let '(l0, l1, l2) := line in
  match cell_of b l0, cell_of b l1, cell_of b l2 with
  | Some a, Some b, Some c =>
      negb (Ascii.eqb a EMPTY) && Ascii.eqb a b && Ascii.eqb b c
  | _, _, _ => false
  end.

Definition line_in_bounds (line : Z * Z * Z) : bool :=
  let '(l0, l1, l2) := line in
  in_bounds l0 && in_bounds l1 && in_bounds l2.

(** No cell of the array is empty. *)
Definition all_marked (b : list ascii) : Prop :=
  Forall (fun cell => cell <> EMPTY) b.

Definition non_empty (cell : ascii) : bool := negb (Ascii.eqb cell EMPTY).

(** The sentence of the specification about [is_draw], for one state:
    true exactly when the nine cells are marked and [has_winner] is
    false. *)
Definition is_draw_as_specified (w : World) : Prop :=
  is_draw w = Ok true w <->
  (all_marked (board_ (game w)) /\ has_winner w = Ok false w).

(** A full board with the diagonal 1-5-9 of X:
<<
     X | O | X
     O | X | O
     O | X | X
>> *)
Definition full_board_with_line : list ascii :=
  [ MARK_X; MARK_O; MARK_X;
    MARK_O; MARK_X; MARK_O;
    MARK_O; MARK_X; MARK_X ].

(** The moves of a session that ends on that board, X completing the
    diagonal with the ninth mark. *)
Definition moves_to_full_board_with_line : list string :=
  ["1"; "2"; "3"; "4"; "8"; "6"; "9"; "7"; "5"].

(** The characters of the position numbers 1 to 9, by cell index. *)
Definition position_digits : list ascii :=
  ["1"; "2"; "3"; "4"; "5"; "6"; "7"; "8"; "9"]%char.

(** What a cell shows: its mark when it has one, else its position
    number. *)
Definition shown (index : nat) (cell : ascii) : ascii :=
  if Ascii.eqb cell EMPTY then
    match position_digits !! index with
    | Some digit => digit
    | None => cell
    end
  else cell.

(** The layout of the grid: three rows of three cells, the cells of a row
    separated by a bar, the rows by a dashed rule, a blank line before and
    after. *)
Definition cell_text (d : ascii) : string := String " " (String d " ").

Definition row_text (a b c : ascii) : string :=
  cell_text a +:+ "|" +:+ cell_text b +:+ "|" +:+ cell_text c +:+ endl.

Definition rule_text : string := "-----------" +:+ endl.

Definition grid_text (d : list ascii) : string :=
  match d with
  | [d0; d1; d2; d3; d4; d5; d6; d7; d8] =>
      endl +:+ row_text d0 d1 d2 +:+ rule_text +:+
      row_text d3 d4 d5 +:+ rule_text +:+
      row_text d6 d7 d8 +:+ endl
  | _ => ""
  end.

Definition rendering (b : list ascii) : string := grid_text (imap shown b).

(** Worlds along one turn of the loop. *)

(** After [draw_board()]. *)
Definition drawn (w : World) : World :=
  add_cout (rendering (board_ (game w))) w.

(** After the prompt is printed. *)
Definition prompted (w : World) : World :=
  add_cout (prompt_text (current_player_ (game w))) w.

(** After [std::getline] took a line and left [rest]. *)
Definition consumed (rest : list string) (w : World) : World :=
  mkWorld (game w) rest (cout w) (log w).

(** After [std::cout << s << std::endl]. *)
Definition said (s : string) (w : World) : World :=
  add_cout endl (add_cout s w).

(** A line in the everyday sense of "a valid integer": an optional sign
    and then decimal digits, one at least, up to the end of the line. *)
Fixpoint only_digits (s : string) : bool :=
  match s with
  | String c rest => isdigit c && only_digits rest
  | EmptyString => true
  end.

Definition unsigned_integer (s : string) : bool :=
  starts_with_digit s && only_digits s.

Definition valid_integer (line : string) : bool :=
  match line with
  | String "-" rest | String "+" rest => unsigned_integer rest
  | _ => unsigned_integer line
  end.

(** [std::stoi] throws on [line]. *)
Definition stoi_throws (line : string) : Prop :=
  stoi line = stoi_invalid_argument \/ stoi line = stoi_out_of_range.

(** The line once leading white space and one sign are dropped: where
    [std::stoi] looks for digits. *)
Definition after_sign (line : string) : string :=
  match skip_spaces line with
  | String "-" rest | String "+" rest => rest
  | s => s
  end.

Definition is_negative (line : string) : bool :=
  match skip_spaces line with
  | String "-" _ => true
  | _ => false
  end.

(** The integer [std::strtol] reads at the start of the line. *)
Definition leading_integer (line : string) : Z :=
  let magnitude := read_digits 0 (after_sign line) in
  if is_negative line then - magnitude else magnitude.

Definition fits_int (n : Z) : bool := (INT_MIN <=? n) && (n <=? INT_MAX).

(** What [prompt_move] does for a line that is no move: the message about
    numbers is printed after the prompt, the object is as it was, and the
    caller is told that no move was applied. *)
Definition reports_parse_error (w : World) : Prop :=
  exists w',
    prompt_move w = Ok false w' /\
    game w' = game w /\
    cout w' =
      cout w +:+ prompt_text (current_player_ (game w)) +:+ MSG_PARSE +:+ endl.

(** The sentence of the specification about unparsable input, for one
    state: if the line to be read is not a valid integer, the parse error
    is reported. *)
Definition parse_error_as_specified (w : World) : Prop :=
  forall (line : string) (rest : list string),
    cin w = line :: rest ->
    valid_integer line = false ->
    reports_parse_error w.

(** ** The loop as a state machine *)

(** Lines 12-13 of a turn: the board is drawn and a move is asked for. *)
Definition turn_input : M bool :=
  draw_board ;;
  prompt_move.

(** Lines 17-29 of a turn, run once a mark is placed: [true] when the loop
    goes round again (the end of the body, after [swap_player()]),
    [false] on [break]. *)
Definition turn_checks : M bool :=
  won <- has_winner ;;
  note (EvWinCheck won) ;;
  if won then
    draw_board ;;
    player <- read_current_player ;;
    print (win_text player) ;; print endl ;;
    note (EvAnnounceWin player) ;;
    ret false
  else
    isfull <- is_draw ;;
    note (EvDrawCheck isfull) ;;
    if isfull then
      draw_board ;;
      print MSG_DRAW ;; print endl ;;
      note EvAnnounceDraw ;;
      ret false
    else
      swap_player ;;
      ret true.

(** The body of the [while (true)] of [run()] for one turn; [continue] is
    the [true] of the first branch. *)
Definition iteration : M bool :=
  moved <- turn_input ;;
  if negb moved then ret true else turn_checks.

(** The part of [run()] before the loop, lines 8-9. *)
Definition run_prologue : M unit :=
  reset ;;
  print MSG_WELCOME ;; print endl.

(** The other player, as [swap_player] computes it. *)
Definition other (player : ascii) : ascii :=
  if Ascii.eqb player MARK_X then MARK_O else MARK_X.

(** After [swap_player()]. *)
Definition swapped (w : World) : World :=
  add_log EvSwap (set_current_player (other (current_player_ (game w))) w).

(** The values of [has_winner] and [is_draw] as functions of the array. *)
Definition winner (b : list ascii) : bool := existsb (line_won b) wins.
Definition full (b : list ascii) : bool := forallb non_empty b.

(** The test of [place_mark]. *)
Definition accepts (w : World) (position : Z) : bool :=
  (1 <=? position) && (position <=? 9) &&
  match board_ (game w) !! Z.to_nat (position - 1) with
  | Some cell => Ascii.eqb cell EMPTY
  | None => false
  end.

(** The rest of a turn once a mark is placed: lines 17-29. *)
Definition after_move (w : World) : result bool :=
  let player := current_player_ (game w) in
  if winner (board_ (game w)) then
    Ok false
      (add_log (EvAnnounceWin player)
         (said (win_text player) (drawn (add_log (EvWinCheck true) w))))
  else if full (board_ (game w)) then
    Ok false
      (add_log EvAnnounceDraw
         (said MSG_DRAW
            (drawn (add_log (EvDrawCheck true) (add_log (EvWinCheck false) w)))))
  else
    Ok true
      (swapped (add_log (EvDrawCheck false) (add_log (EvWinCheck false) w))).

(** One turn of the loop as a function of the world at its head. *)
Definition step (w : World) : result bool :=
  match cin w with
  | [] => Exited 0 (said MSG_CLOSED (prompted (drawn w)))
  | line :: rest =>
      let asked := consumed rest (prompted (drawn w)) in
      match stoi line with
      | stoi_value choice =>
          if accepts w choice then after_move (marked (choice - 1) asked)
          else Ok true (said MSG_INVALID asked)
      | stoi_invalid_argument | stoi_out_of_range =>
          Ok true (said MSG_PARSE asked)
      end
  end.

(** The states of the main loop. *)
Inductive phase : Type :=
| AwaitingMove      (* at the head of the loop *)
| MoveAccepted      (* a mark is placed, the checks are still to run *)
| Won
| Drawn
| Terminated.       (* the input was closed *)

Definition terminal (ph : phase) : Prop :=
  ph = Won \/ ph = Drawn \/ ph = Terminated.

(** How [run] ends in each terminal state: by [std::exit(0)] when the
    input is closed, by returning otherwise. *)
Definition finish {A} (returned : A) (ph : phase) (w : World) : result A :=
  match ph with
  | Terminated => Exited 0 w
  | _ => Ok returned w
  end.

(** The worlds a session passes through, with the state of the loop they
    are in.  Each rule is one stretch of [run()]. *)
Inductive reachable : phase -> World -> Prop :=
| reach_reset (input : list string) (w : World) :
    run_prologue (initial_world input) = Ok tt w ->
    reachable AwaitingMove w
| reach_no_move (w w' : World) :
    reachable AwaitingMove w ->
    turn_input w = Ok false w' ->
    reachable AwaitingMove w'
| reach_closed (w w' : World) (code : Z) :
    reachable AwaitingMove w ->
    turn_input w = Exited code w' ->
    reachable Terminated w'
| reach_accepted (w w' : World) :
    reachable AwaitingMove w ->
    turn_input w = Ok true w' ->
    reachable MoveAccepted w'
| reach_swapped (w w' : World) :
    reachable MoveAccepted w ->
    turn_checks w = Ok true w' ->
    reachable AwaitingMove w'
| reach_won (w w' : World) :
    reachable MoveAccepted w ->
    has_winner w = Ok true w ->
    turn_checks w = Ok false w' ->
    reachable Won w'
| reach_drawn (w w' : World) :
    reachable MoveAccepted w ->
    has_winner w = Ok false w ->
    turn_checks w = Ok false w' ->
    reachable Drawn w'.

(** The number of cells that hold [mark]. *)
Fixpoint count (mark : ascii) (b : list ascii) : nat :=
  match b with
  | [] => 0
  | cell :: rest => (if Ascii.eqb cell mark then 1 else 0) + count mark rest
  end.

Definition cell_value (cell : ascii) : Prop :=
  cell = EMPTY \/ cell = MARK_X \/ cell = MARK_O.

(** The invariant of the object: nine cells, each empty or a mark; a
    player to move; as many X as O, or one X more. *)
Definition legal (g : TicTacToe) : Prop :=
  length (board_ g) = 9%nat /\
  Forall cell_value (board_ g) /\
  (current_player_ g = MARK_X \/ current_player_ g = MARK_O) /\
  (Z.of_nat (count MARK_X (board_ g)) - Z.of_nat (count MARK_O (board_ g)) = 0 \/
   Z.of_nat (count MARK_X (board_ g)) - Z.of_nat (count MARK_O (board_ g)) = 1).

(** Whose turn it is against the marks on the board, before the mark of
    the turn is placed and after. *)
Definition to_move (g : TicTacToe) : Prop :=
  (current_player_ g = MARK_X /\
   count MARK_X (board_ g) = count MARK_O (board_ g)) \/
  (current_player_ g = MARK_O /\
   count MARK_X (board_ g) = S (count MARK_O (board_ g))).

Definition has_moved (g : TicTacToe) : Prop :=
  (current_player_ g = MARK_X /\
   count MARK_X (board_ g) = S (count MARK_O (board_ g))) \/
  (current_player_ g = MARK_O /\
   count MARK_X (board_ g) = count MARK_O (board_ g)).

(** A mark of the log is on the board. *)
Definition on_board (b : list ascii) (e : event) : Prop :=
  match e with
  | EvMark player index =>
      in_bounds index = true /\ player <> EMPTY /\
      b !! Z.to_nat index = Some player
  | _ => True
  end.

(** What holds of a world in each state of the loop. *)
Definition phase_invariant (ph : phase) (w : World) : Prop :=
  well_formed w /\
  Forall cell_value (board_ (game w)) /\
  Forall (on_board (board_ (game w))) (log w) /\
  match ph with
  | AwaitingMove | Terminated =>
      to_move (game w) /\ winner (board_ (game w)) = false
  | MoveAccepted => has_moved (game w)
  | Won => has_moved (game w) /\ winner (board_ (game w)) = true
  | Drawn =>
      has_moved (game w) /\ winner (board_ (game w)) = false /\
      full (board_ (game w)) = true
  end.

(** The log of a session from a loop head where [mover] is to play, up
    to its end in a terminal state with [last] the current player: rounds
    of mark, win check, draw check and swap, closed by a round that
    announces a win or a draw and swaps no more, or left open when the
    input is closed. *)
Inductive session_log : ascii -> list event -> phase -> ascii -> Prop :=
| log_closed (mover : ascii) :
    session_log mover [] Terminated mover
| log_won (mover : ascii) (index : Z) :
    session_log mover
      [EvMark mover index; EvWinCheck true; EvAnnounceWin mover] Won mover
| log_drawn (mover : ascii) (index : Z) :
    session_log mover
      [EvMark mover index; EvWinCheck false; EvDrawCheck true; EvAnnounceDraw]
      Drawn mover
| log_round (mover : ascii) (index : Z) (rest : list event)
            (ph : phase) (last : ascii) :
    session_log (other mover) rest ph last ->
    session_log mover
      (EvMark mover index :: EvWinCheck false :: EvDrawCheck false ::
       EvSwap :: rest) ph last.

(** What follows a mark in the log of a session that ends in [ph]: the
    win check at once; after a win the announcement for [player] and
    nothing more; else the draw check, and only after a draw check that
    fails the swap. *)
Definition follows_mark (player : ascii) (ph : phase) (post : list event)
  : Prop :=
  exists (won : bool) (rest1 : list event),
    post = EvWinCheck won :: rest1 /\
    if won then rest1 = [EvAnnounceWin player] /\ ph = Won
    else
      exists (isfull : bool) (rest2 : list event),
        rest1 = EvDrawCheck isfull :: rest2 /\
        if isfull then rest2 = [EvAnnounceDraw] /\ ph = Drawn
        else exists rest3, rest2 = EvSwap :: rest3.

(** The players of the marks of a log, in order. *)
Fixpoint movers (l : list event) : list ascii :=
  match l with
  | [] => []
  | EvMark player _ :: rest => player :: movers rest
  | _ :: rest => movers rest
  end.

(** How the last world of a session looks in each terminal state. *)
Definition ending (ph : phase) (w' : World) : Prop :=
  match ph with
  | Won =>
      exists h,
        w' = add_log (EvAnnounceWin (current_player_ (game h)))
               (said (win_text (current_player_ (game h))) (drawn h))
  | Drawn =>
      exists h, w' = add_log EvAnnounceDraw (said MSG_DRAW (drawn h))
  | Terminated =>
      exists h,
        reachable AwaitingMove h /\ cin h = [] /\
        w' = said MSG_CLOSED (prompted (drawn h))
  | AwaitingMove | MoveAccepted => False
  end.

(** The rest of the program from the head of a turn of the loop: the
    loop, then the [return 0] of [main]. *)
Definition main_from_loop_head (fuel : nat) : M Z :=
  run_loop (S fuel) ;;
  ret 0.

(** The first scenario of the specification, without its rejected
    move. *)
Definition left_column_moves : list string := ["1"; "2"; "4"; "5"; "7"].

Definition left_column_board : list ascii :=
  [ MARK_X; MARK_O; EMPTY;
    MARK_X; MARK_O; EMPTY;
    MARK_X; EMPTY; EMPTY ].

(** Nine moves that fill the board with no line for either player. *)
Definition drawn_game_moves : list string :=
  ["1"; "2"; "3"; "5"; "4"; "6"; "8"; "7"; "9"].

(** ** The operations in any order *)

(** The methods of the class, as calls. *)
Inductive operation : Type :=
| OpReset
| OpDrawBoard
| OpPromptMove
| OpPlaceMark (position : Z)
| OpHasWinner
| OpIsDraw
| OpSwapPlayer.

Definition perform_one (op : operation) : M unit :=
  match op with
  | OpReset => reset
  | OpDrawBoard => draw_board
  | OpPromptMove => prompt_move ;; ret tt
  | OpPlaceMark position => place_mark position ;; ret tt
  | OpHasWinner => has_winner ;; ret tt
  | OpIsDraw => is_draw ;; ret tt
  | OpSwapPlayer => swap_player
  end.

(** The calls of a list, one after the other. *)
Fixpoint perform (ops : list operation) : M unit :=
  match ops with
  | [] => ret tt
  | op :: rest => perform_one op ;; perform rest
  end.

(** The part of the invariant that no order of the calls can break: nine
    cells, each empty or a mark, and a player X or O. *)
Definition sound_object (g : TicTacToe) : Prop :=
  length (board_ g) = 9%nat /\
  Forall cell_value (board_ g) /\
  (current_player_ g = MARK_X \/ current_player_ g = MARK_O).

(** The sentence about the states reached from [reset()] by any sequence
    of operations, as it is worded: each of them is [legal], balance of
    the marks included. *)
Definition legal_after_any_operations : Prop :=
  forall (ops : list operation) (w w' : World),
    (reset ;; perform ops) w = Ok tt w' -> legal (game w').

(** ** Vocabulary of the further properties *)

(** The cells of the marks of a log, in order. *)
Fixpoint mark_indices (l : list event) : list Z :=
  match l with
  | [] => []
  | EvMark _ index :: rest => index :: mark_indices rest
  | _ :: rest => mark_indices rest
  end.

(** [player] holds the three cells of one of the lines of [wins]. *)
Definition owns_line (b : list ascii) (player : ascii) : Prop :=
  exists l0 l1 l2,
    In (l0, l1, l2) wins /\
    cell_of b l0 = Some player /\
    cell_of b l1 = Some player /\
    cell_of b l2 = Some player.

(** The line a player types to take the cell of index [index]: the digit
    that [draw_board] shows there while the cell is empty. *)
Definition hint_line (index : nat) : string :=
  String (shown index EMPTY) EmptyString.

(** A world with the same console and log around another object. *)
Definition with_game (g : TicTacToe) (w : World) : World :=
  mkWorld g (cin w) (cout w) (log w).

(** Where the board of a state in which a mark was just placed comes
    from: a board without a complete line, on which the current player
    took an empty cell. *)
Definition just_marked (g : TicTacToe) : Prop :=
  exists (before : list ascii) (index : nat),
    winner before = false /\
    before !! index = Some EMPTY /\
    current_player_ g <> EMPTY /\
    board_ g = <[index := current_player_ g]> before.

(** What the log tells about the board, and what each state of the loop
    adds to the invariant of the claims. *)
Definition session_facts (ph : phase) (w : World) : Prop :=
  length (movers (log w))
    = (count MARK_X (board_ (game w)) + count MARK_O (board_ (game w)))%nat /\
  NoDup (mark_indices (log w)) /\
  (forall (j : nat) (c : ascii),
     board_ (game w) !! j = Some c -> c <> EMPTY ->
     In (EvMark c (Z.of_nat j)) (log w)) /\
  match ph with
  | AwaitingMove | Terminated => full (board_ (game w)) = false
  | MoveAccepted | Won | Drawn => just_marked (game w)
  end.

(** Only white space, in the sense of [isspace]. *)
Fixpoint only_spaces (s : string) : bool :=
  match s with
  | String c rest => isspace c && only_spaces rest
  | EmptyString => true
  end.

(** The line read is a number for [std::stoi]: digits follow the white
    space and the sign, and their value fits [int]. *)
Definition numeric_line (line : string) : Prop :=
  starts_with_digit (after_sign line) = true /\
  fits_int (leading_integer line) = true.

(** The session of [drawn_game_moves] at its end. *)
Definition drawn_board : list ascii :=
  [ MARK_X; MARK_O; MARK_X;
    MARK_X; MARK_O; MARK_O;
    MARK_O; MARK_X; MARK_X ].

(** The world at the head of the loop once [turns] turns are over, if the
    loop goes that far. *)
Fixpoint head_after (turns : nat) (w : World) : option World :=
  match turns with
  | O => Some w
  | S turns' =>
      match iteration w with
      | Ok true w' => head_after turns' w'
      | _ => None
      end
  end.

(** * Properties *)

(** ** Arrays of nine cells *)

Lemma board_nine (b : list ascii) :
  length b = 9%nat ->
  exists c0 c1 c2 c3 c4 c5 c6 c7 c8, b = [c0; c1; c2; c3; c4; c5; c6; c7; c8].
Proof.
  intros Hlen.
  do 9 (destruct b as [| ? b]; [discriminate Hlen |]).
  destruct b; [| discriminate Hlen].
  repeat eexists.
Qed.

Lemma in_bounds_spec (i : Z) : in_bounds i = true <-> 0 <= i <= 8.
Proof. unfold in_bounds, BOARD_SIZE. lia. Qed.

Lemma in_bounds_lookup (b : list ascii) (i : Z) :
  length b = 9%nat -> in_bounds i = true -> is_Some (b !! Z.to_nat i).
Proof.
  intros Hlen Hi. apply in_bounds_spec in Hi.
  apply lookup_lt_is_Some. lia.
Qed.

Lemma read_board_ok (w : World) (i : Z) (c : ascii) :
  in_bounds i = true ->
  board_ (game w) !! Z.to_nat i = Some c ->
  read_board i w = Ok c w.
Proof. intros Hi Hc. unfold read_board. now rewrite Hi, Hc. Qed.

Lemma read_board_defined (w : World) (i : Z) :
  well_formed w ->
  in_bounds i = true ->
  exists c, board_ (game w) !! Z.to_nat i = Some c /\ read_board i w = Ok c w.
Proof.
  intros Hw Hi. destruct (in_bounds_lookup _ _ Hw Hi) as [c Hc].
  exists c. split; [exact Hc | now apply read_board_ok].
Qed.

Lemma write_board_ok (w : World) (i : Z) (c : ascii) :
  well_formed w ->
  in_bounds i = true ->
  write_board i c w = Ok tt (set_board (<[Z.to_nat i := c]> (board_ (game w))) w).
Proof.
  intros Hw Hi. unfold write_board. rewrite Hi. unfold well_formed in Hw.
  rewrite Hw. apply in_bounds_spec in Hi.
  replace (Z.to_nat i <? 9)%nat with true; [reflexivity |].
  symmetry. apply Nat.ltb_lt. lia.
Qed.

Lemma eqb_EMPTY (c : ascii) : Ascii.eqb c EMPTY = true <-> c = EMPTY.
Proof. apply Ascii.eqb_eq. Qed.

Lemma neqb_EMPTY (c : ascii) : Ascii.eqb c EMPTY = false <-> c <> EMPTY.
Proof. apply Ascii.eqb_neq. Qed.

(** ** [place_mark] *)

Lemma place_mark_out_of_range (w : World) (position : Z) :
  position < 1 \/ position > 9 -> place_mark position w = Ok false w.
Proof.
  intros Hrange. unfold place_mark.
  replace ((position <? 1) || (position >? 9)) with true; [reflexivity |].
  symmetry. apply orb_true_iff. lia.
Qed.

Lemma place_mark_in_range (w : World) (position : Z) (cell : ascii) :
  well_formed w ->
  1 <= position <= 9 ->
  board_ (game w) !! Z.to_nat (position - 1) = Some cell ->
  place_mark position w =
    if Ascii.eqb cell EMPTY then Ok true (marked (position - 1) w)
    else Ok false w.
Proof.
  intros Hw Hrange Hcell. unfold place_mark.
  replace ((position <? 1) || (position >? 9)) with false
    by (symmetry; apply orb_false_iff; lia).
  assert (Hi : in_bounds (position - 1) = true) by (apply in_bounds_spec; lia).
  unfold bind at 1. rewrite (read_board_ok w _ cell Hi Hcell).
  destruct (Ascii.eqb cell EMPTY); simpl; [| reflexivity].
  unfold bind, read_current_player.
  rewrite (write_board_ok w _ _ Hw Hi). reflexivity.
Qed.

(** C2.  [place_mark] rejects a position below 1, above 9, or on a cell
    that is not empty: it returns [false] and the whole object is as it
    was.  Every other position is accepted: it returns [true], cell
    [position - 1] holds the current player's mark, and every other cell
    and the current player are as they were. *)
Theorem place_mark_spec (w : World) (position : Z) :
  well_formed w ->
  (rejected w position -> place_mark position w = Ok false w) /\
  (~ rejected w position ->
   exists w',
     place_mark position w = Ok true w' /\
     board_ (game w') !! Z.to_nat (position - 1) =
       Some (current_player_ (game w)) /\
     (forall j, j <> Z.to_nat (position - 1) ->
                board_ (game w') !! j = board_ (game w) !! j) /\
     length (board_ (game w')) = length (board_ (game w)) /\
     current_player_ (game w') = current_player_ (game w)).
Proof.
  intros Hw. unfold rejected. split.
  - intros [Hlow | [Hhigh | (cell & Hcell & Hne)]].
    + apply place_mark_out_of_range. now left.
    + apply place_mark_out_of_range. now right.
    + destruct (Z_lt_le_dec position 1) as [Hlt | Hge];
        [apply place_mark_out_of_range; now left |].
      destruct (Z_gt_le_dec position 9) as [Hgt | Hle];
        [apply place_mark_out_of_range; now right |].
      rewrite (place_mark_in_range w position cell Hw (conj Hge Hle) Hcell).
      apply neqb_EMPTY in Hne. now rewrite Hne.
  - intros Hacc.
    assert (Hrange : 1 <= position <= 9) by lia.
    assert (Hi : in_bounds (position - 1) = true) by (apply in_bounds_spec; lia).
    destruct (in_bounds_lookup _ _ Hw Hi) as [cell Hcell].
    assert (Hcell' : cell = EMPTY).
    { destruct (ascii_dec cell EMPTY) as [Heq | Hne]; [exact Heq |].
      exfalso. apply Hacc. right. right. eauto. }
    subst cell.
    exists (marked (position - 1) w).
    rewrite (place_mark_in_range w position EMPTY Hw Hrange Hcell).
    split; [reflexivity |]. simpl.
    assert (Hlt : (Z.to_nat (position - 1) < length (board_ (game w)))%nat)
      by (apply lookup_lt_is_Some; eauto).
    split; [now apply list_lookup_insert_eq |].
    split; [intros j Hj; now apply list_lookup_insert_ne |].
    split; [apply length_insert | reflexivity].
Qed.

Lemma place_mark_spec_witness :
  place_mark 12 (reset_world []) = Ok false (reset_world []) /\
  exists w',
    place_mark 5 (reset_world []) = Ok true w' /\
    board_ (game w') !! Z.to_nat (5 - 1) = Some MARK_X /\
    (forall j, j <> Z.to_nat (5 - 1) ->
               board_ (game w') !! j = replicate 9 EMPTY !! j) /\
    length (board_ (game w')) = 9%nat /\
    current_player_ (game w') = MARK_X.
Proof.
  split.
  - apply (place_mark_spec (reset_world []) 12); [reflexivity |].
    right. left. lia.
  - apply (place_mark_spec (reset_world []) 5); [reflexivity |].
    intros [Hlow | [Hhigh | (cell & Hcell & Hne)]]; [lia | lia |].
    apply Hne. simpl in Hcell. now injection Hcell as <-.
Defined.

(** C9.  [place_mark] is total on every integer: with a position outside
    1..9 it returns before the array is touched (whatever the array), and
    with a position inside it the only index used, [position - 1], lies in
    0..8, so no access of the call is out of bounds. *)
Theorem place_mark_total (w : World) (position : Z) :
  well_formed w ->
  (exists (accepted : bool) (w' : World),
     place_mark position w = Ok accepted w') /\
  (1 <= position <= 9 -> in_bounds (position - 1) = true) /\
  (position < 1 \/ position > 9 ->
   forall anyw : World, place_mark position anyw = Ok false anyw) /\
  (forall i : Z, read_board i w = Undefined <-> in_bounds i = false) /\
  (forall (i : Z) (c : ascii),
     write_board i c w = Undefined <-> in_bounds i = false).
Proof.
  intros Hw. split; [| split; [| split; [| split]]].
  - destruct (Z_lt_le_dec position 1) as [Hlt | Hge];
      [exists false, w; apply place_mark_out_of_range; now left |].
    destruct (Z_gt_le_dec position 9) as [Hgt | Hle];
      [exists false, w; apply place_mark_out_of_range; now right |].
    assert (Hi : in_bounds (position - 1) = true) by (apply in_bounds_spec; lia).
    destruct (in_bounds_lookup _ _ Hw Hi) as [cell Hcell].
    rewrite (place_mark_in_range w position cell Hw (conj Hge Hle) Hcell).
    destruct (Ascii.eqb cell EMPTY); eauto.
  - intros Hrange. apply in_bounds_spec. lia.
  - intros Hrange anyw. now apply place_mark_out_of_range.
  - intros i. unfold read_board. destruct (in_bounds i) eqn:Hi; [| easy].
    destruct (in_bounds_lookup _ _ Hw Hi) as [c Hc]. rewrite Hc. easy.
  - intros i c. destruct (in_bounds i) eqn:Hi.
    + rewrite (write_board_ok w i c Hw Hi). easy.
    + unfold write_board. rewrite Hi. easy.
Qed.

Lemma place_mark_total_witness :
  exists (accepted : bool) (w' : World),
    place_mark (-7) (reset_world []) = Ok accepted w'.
Proof.
  apply (place_mark_total (reset_world []) (-7)). reflexivity.
Defined.

(** ** [has_winner] *)

Lemma cell_of_read (w : World) (i : Z) :
  well_formed w ->
  in_bounds i = true ->
  exists c, cell_of (board_ (game w)) i = Some c /\ read_board i w = Ok c w.
Proof.
  intros Hw Hi. destruct (read_board_defined w i Hw Hi) as (c & Hc & Hr).
  exists c. unfold cell_of. now rewrite Hi.
Qed.

(** The loop reads, never writes: it returns in the world it started in,
    with the disjunction of the tests of its lines. *)
Lemma has_winner_from_spec (w : World) (lines : list (Z * Z * Z)) :
  well_formed w ->
  forallb line_in_bounds lines = true ->
  has_winner_from lines w = Ok (existsb (line_won (board_ (game w))) lines) w.
Proof.
  intros Hw. induction lines as [| [[l0 l1] l2] rest IH]; intros Hb.
  - reflexivity.
  - simpl in Hb. apply andb_true_iff in Hb as [Hline Hrest].
    unfold line_in_bounds in Hline.
    apply andb_true_iff in Hline as [Hline H2].
    apply andb_true_iff in Hline as [H0 H1].
    destruct (cell_of_read w l0 Hw H0) as (a & Ha & Hra).
    destruct (cell_of_read w l1 Hw H1) as (b & Hb & Hrb).
    destruct (cell_of_read w l2 Hw H2) as (c & Hc & Hrc).
    cbn [has_winner_from existsb line_won]. unfold bind.
    rewrite Hra, Hrb, Hrc, Ha, Hb, Hc.
    destruct (negb (Ascii.eqb a EMPTY) && Ascii.eqb a b && Ascii.eqb b c).
    + reflexivity.
    + rewrite (IH Hrest). reflexivity.
Qed.

Lemma line_won_aligned (b : list ascii) (l0 l1 l2 : Z) :
  line_won b (l0, l1, l2) = true <-> aligned b l0 l1 l2.
Proof.
  unfold line_won, aligned. split.
  - destruct (cell_of b l0) as [x |]; [| discriminate].
    destruct (cell_of b l1) as [y |]; [| discriminate].
    destruct (cell_of b l2) as [z |]; [| discriminate].
    intros H. apply andb_true_iff in H as [H Hyz].
    apply andb_true_iff in H as [Hx Hxy].
    apply Ascii.eqb_eq in Hxy, Hyz. subst y z.
    apply negb_true_iff, neqb_EMPTY in Hx. eauto.
  - intros (mark & Hne & -> & -> & ->).
    apply neqb_EMPTY in Hne. rewrite Hne, Ascii.eqb_refl. reflexivity.
Qed.

Lemma wins_aligned (b : list ascii) :
  existsb (line_won b) wins = true <-> some_line_aligned b.
Proof.
  unfold some_line_aligned. rewrite existsb_exists. split.
  - intros ([[l0 l1] l2] & Hin & Hwon). apply line_won_aligned in Hwon.
    simpl in Hin.
    destruct Hin as [H | [H | [H | [H | [H | [H | [H | [H | []]]]]]]]];
      injection H as <- <- <-.
    + left. exists 0. split; [lia | exact Hwon].
    + left. exists 1. split; [lia | exact Hwon].
    + left. exists 2. split; [lia | exact Hwon].
    + right. left. exists 0. split; [lia | exact Hwon].
    + right. left. exists 1. split; [lia | exact Hwon].
    + right. left. exists 2. split; [lia | exact Hwon].
    + right. right. left. exact Hwon.
    + right. right. right. exact Hwon.
  - intros [(r & Hr & Hal) | [(c & Hc & Hal) | [Hal | Hal]]].
    + exists (3 * r, 3 * r + 1, 3 * r + 2).
      split; [| now apply line_won_aligned].
      assert (r = 0 \/ r = 1 \/ r = 2) as [-> | [-> | ->]] by lia;
        simpl; tauto.
    + exists (c, c + 3, c + 6).
      split; [| now apply line_won_aligned].
      assert (c = 0 \/ c = 1 \/ c = 2) as [-> | [-> | ->]] by lia;
        simpl; tauto.
    + exists (0, 4, 8). split; [simpl; tauto | now apply line_won_aligned].
    + exists (2, 4, 6). split; [simpl; tauto | now apply line_won_aligned].
Qed.

Lemma has_winner_value (w : World) :
  well_formed w ->
  has_winner w = Ok (winner (board_ (game w))) w.
Proof. intros Hw. now apply has_winner_from_spec. Qed.

Lemma has_winner_iff (w : World) (won : bool) :
  well_formed w ->
  (has_winner w = Ok won w <-> winner (board_ (game w)) = won).
Proof.
  intros Hw. rewrite (has_winner_value w Hw).
  generalize (winner (board_ (game w))). intros value. split.
  - intros H. now injection H.
  - now intros ->.
Qed.


(** C3.  [has_winner] returns [true] exactly when a row, a column or a
    diagonal holds three equal marks that are not empty, hence [false] on
    the empty board and on every board without such a line; the call
    leaves the object, the console and the rest of the world as they
    were. *)
Theorem has_winner_spec (w : World) :
  well_formed w ->
  exists won : bool,
    has_winner w = Ok won w /\
    (won = true <-> some_line_aligned (board_ (game w))) /\
    (~ some_line_aligned (board_ (game w)) -> won = false) /\
    (board_ (game w) = replicate 9 EMPTY -> won = false).
Proof.
  intros Hw. exists (existsb (line_won (board_ (game w))) wins).
  split; [now apply has_winner_value |].
  split; [apply wins_aligned |].
  split.
  - intros Hno. apply not_true_is_false. intros Hwon. apply Hno.
    now apply wins_aligned.
  - intros ->. reflexivity.
Qed.

Lemma has_winner_spec_witness :
  exists won : bool,
    has_winner (reset_world []) = Ok won (reset_world []) /\
    (won = true <-> some_line_aligned (replicate 9 EMPTY)) /\
    (~ some_line_aligned (replicate 9 EMPTY) -> won = false) /\
    (replicate 9 EMPTY = replicate 9 EMPTY -> won = false).
Proof.
  apply (has_winner_spec (reset_world [])). reflexivity.
Defined.

(** ** [is_draw] *)

Lemma is_draw_from_spec (w : World) (cells : list ascii) :
  is_draw_from cells w = Ok (forallb non_empty cells) w.
Proof.
  induction cells as [| cell rest IH]; [reflexivity |].
  cbn [is_draw_from forallb]. unfold non_empty at 1.
  destruct (Ascii.eqb cell EMPTY); [reflexivity | exact IH].
Qed.

Lemma is_draw_iff (w : World) (isfull : bool) :
  is_draw w = Ok isfull w <-> full (board_ (game w)) = isfull.
Proof.
  unfold is_draw, full. rewrite is_draw_from_spec. split.
  - intros H. now injection H.
  - now intros ->.
Qed.

Lemma forallb_non_empty (cells : list ascii) :
  forallb non_empty cells = true <-> all_marked cells.
Proof.
  unfold all_marked. rewrite forallb_forall, Forall_forall.
  split; intros H cell Hin.
  - apply neqb_EMPTY, negb_true_iff. apply H. now apply list_elem_of_In.
  - apply negb_true_iff, neqb_EMPTY. apply H. now apply list_elem_of_In.
Qed.

(** C1, as the code has it.  [is_draw] returns [true] exactly when none
    of the nine cells is empty.  It does not look at the lines: where
    [has_winner] is false this is the specified condition, and on a full
    board that holds a line it still returns [true].  The call changes
    nothing. *)
Theorem is_draw_spec (w : World) :
  exists full : bool,
    is_draw w = Ok full w /\
    (full = true <-> all_marked (board_ (game w))) /\
    (has_winner w = Ok false w ->
     (full = true <->
      all_marked (board_ (game w)) /\ has_winner w = Ok false w)) /\
    (all_marked (board_ (game w)) -> has_winner w = Ok true w ->
     full = true).
Proof.
  exists (forallb non_empty (board_ (game w))).
  split; [apply is_draw_from_spec |].
  split; [apply forallb_non_empty |].
  split.
  - intros Hno. rewrite forallb_non_empty. tauto.
  - intros Hall _. now apply forallb_non_empty.
Qed.

(** C1, as stated, fails on a board a session reaches: after the nine
    moves 1 2 3 4 8 6 9 7 5 every cell is marked and X holds the diagonal,
    [has_winner] is true, and [is_draw] is true as well. *)
Lemma is_draw_counterexample :
  exists w : World,
    final_world (main (enough_fuel moves_to_full_board_with_line)
                   (initial_world moves_to_full_board_with_line)) = Some w /\
    board_ (game w) = full_board_with_line /\
    all_marked (board_ (game w)) /\
    has_winner w = Ok true w /\
    is_draw w = Ok true w /\
    ~ is_draw_as_specified w.
Proof.
  eexists. split; [vm_compute; reflexivity |].
  split; [reflexivity |].
  assert (Hall : all_marked full_board_with_line).
  { apply forallb_non_empty. reflexivity. }
  split; [exact Hall |].
  split; [reflexivity |].
  split; [reflexivity |].
  intros Hclaim. destruct Hclaim as [Hto _].
  destruct (Hto eq_refl) as [_ Hwin]. discriminate Hwin.
Qed.

(** ** [draw_board] *)

Lemma append_assoc (s1 s2 s3 : string) :
  (s1 +:+ s2) +:+ s3 = s1 +:+ (s2 +:+ s3).
Proof.
  induction s1 as [| c s1 IH]; [reflexivity |].
  change (String c ((s1 +:+ s2) +:+ s3) = String c (s1 +:+ (s2 +:+ s3))).
  now rewrite IH.
Qed.

Lemma draw_board_value (w : World) :
  well_formed w ->
  draw_board w = Ok tt (add_cout (rendering (board_ (game w))) w).
Proof.
  intros Hw. destruct w as [[b p] input output events].
  destruct (board_nine b Hw) as (c0 & c1 & c2 & c3 & c4 & c5 & c6 & c7 & c8 & ->).
  unfold add_cout. cbn [game cin cout log board_].
  cbv -[String.append Ascii.eqb EMPTY].
  rewrite !append_assoc. reflexivity.
Qed.

Lemma shown_marked (index : nat) (cell : ascii) :
  cell <> EMPTY -> shown index cell = cell.
Proof. intros Hne. unfold shown. apply neqb_EMPTY in Hne. now rewrite Hne. Qed.

(** C4.  [draw_board] appends the grid to the output and changes nothing
    else; in the grid, the cell of index [i] shows the mark of cell [i]
    when it has one and the digit of [i + 1] when it is empty. *)
Theorem draw_board_spec (w : World) :
  well_formed w ->
  draw_board w
    = Ok tt (add_cout (grid_text (imap shown (board_ (game w)))) w) /\
  game (add_cout (grid_text (imap shown (board_ (game w)))) w) = game w /\
  forall (index : nat) (cell : ascii),
    board_ (game w) !! index = Some cell ->
    imap shown (board_ (game w)) !! index = Some (shown index cell) /\
    (cell <> EMPTY -> shown index cell = cell) /\
    (cell = EMPTY ->
     exists digit,
       position_digits !! index = Some digit /\ shown index cell = digit /\
       digit = ascii_of_nat (48 + (index + 1))).
Proof.
  intros Hw. split; [now apply draw_board_value |].
  split; [reflexivity |].
  intros index cell Hcell. split; [| split].
  - rewrite list_lookup_imap, Hcell. reflexivity.
  - apply shown_marked.
  - intros ->.
    assert (Hlt : (index < 9)%nat).
    { rewrite <- Hw. apply lookup_lt_is_Some. eauto. }
    do 9 (destruct index as [| index];
          [eexists; split; [reflexivity | split; reflexivity] |]).
    lia.
Qed.

Lemma draw_board_spec_witness :
  draw_board (reset_world [])
    = Ok tt (add_cout (grid_text position_digits) (reset_world [])).
Proof.
  apply (draw_board_spec (reset_world [])). reflexivity.
Defined.

(** ** [prompt_move] *)

Lemma prompt_move_closed (w : World) :
  cin w = [] ->
  prompt_move w = Exited 0 (said MSG_CLOSED (prompted w)).
Proof.
  intros Hcin. unfold prompt_move, bind, read_current_player, print, getline.
  cbn [cin add_cout]. rewrite Hcin. reflexivity.
Qed.

Lemma prompt_move_line (w : World) (line : string) (rest : list string) :
  cin w = line :: rest ->
  prompt_move w =
    match stoi line with
    | stoi_value choice =>
        match place_mark choice (consumed rest (prompted w)) with
        | Ok true w' => Ok true w'
        | Ok false w' => Ok false (said MSG_INVALID w')
        | Exited code w' => Exited code w'
        | Undefined => Undefined
        | OutOfFuel => OutOfFuel
        end
    | _ => Ok false (said MSG_PARSE (consumed rest (prompted w)))
    end.
Proof.
  intros Hcin. unfold prompt_move, bind, read_current_player, print, getline.
  cbn [cin add_cout]. rewrite Hcin.
  destruct (stoi line) as [choice | |]; try reflexivity.
  unfold consumed, prompted, add_cout. cbn [game cin cout log].
  destruct (place_mark choice _) as [[|] w' | | |]; reflexivity.
Qed.

(** [std::stoi] by the parts of the line. *)
Lemma stoi_value_of (line : string) :
  stoi line =
    if starts_with_digit (after_sign line) then
      if fits_int (leading_integer line)
      then stoi_value (leading_integer line)
      else stoi_out_of_range
    else stoi_invalid_argument.
Proof.
  unfold stoi, leading_integer, after_sign, is_negative, fits_int.
  destruct (skip_spaces line) as [| c rest]; [reflexivity |].
  destruct c as [[] [] [] [] [] [] [] []]; reflexivity.
Qed.

Lemma stoi_throws_iff (line : string) :
  stoi_throws line <->
  starts_with_digit (after_sign line) = false \/
  fits_int (leading_integer line) = false.
Proof.
  unfold stoi_throws. rewrite stoi_value_of.
  destruct (starts_with_digit (after_sign line));
    destruct (fits_int (leading_integer line)); intuition discriminate.
Qed.

(** C7, as the code has it.  When [std::stoi] throws on the line read --
    which is when no decimal digit follows the leading white space and the
    sign, or the number read there does not fit [int] -- [prompt_move]
    prints the prompt, then "Please enter a number between 1 and 9.",
    leaves the board and the current player as they were, and returns
    [false]. *)
Theorem prompt_move_parse_error
    (w : World) (line : string) (rest : list string) :
  cin w = line :: rest ->
  starts_with_digit (after_sign line) = false \/
  fits_int (leading_integer line) = false ->
  stoi_throws line /\
  reports_parse_error w /\
  prompt_move w = Ok false (said MSG_PARSE (consumed rest (prompted w))).
Proof.
  intros Hcin Hthrows. apply stoi_throws_iff in Hthrows.
  split; [exact Hthrows |].
  assert (Hpm : prompt_move w
                = Ok false (said MSG_PARSE (consumed rest (prompted w)))).
  { rewrite (prompt_move_line w line rest Hcin).
    destruct Hthrows as [-> | ->]; reflexivity. }
  split; [| exact Hpm].
  eexists. split; [exact Hpm |]. split; [reflexivity |].
  cbn. rewrite !append_assoc. reflexivity.
Qed.

Lemma prompt_move_parse_error_witness :
  stoi_throws "abc" /\
  reports_parse_error (reset_world ["abc"]) /\
  prompt_move (reset_world ["abc"])
    = Ok false (said MSG_PARSE (consumed [] (prompted (reset_world ["abc"])))).
Proof.
  apply (prompt_move_parse_error (reset_world ["abc"]) "abc" []).
  - reflexivity.
  - left. reflexivity.
Defined.

(** C7, as stated, fails: "5abc" is no integer, yet [std::stoi] converts
    its leading digit, and [prompt_move] marks cell 5 and returns
    [true]. *)
Lemma prompt_move_counterexample :
  valid_integer "5abc" = false /\
  prompt_move (reset_world ["5abc"])
    = Ok true (marked 4 (consumed [] (prompted (reset_world ["5abc"])))) /\
  board_ (game (marked 4 (consumed [] (prompted (reset_world ["5abc"])))))
    <> board_ (game (reset_world ["5abc"])) /\
  ~ parse_error_as_specified (reset_world ["5abc"]).
Proof.
  split; [reflexivity |].
  split; [reflexivity |].
  split; [discriminate |].
  intros Hclaim.
  destruct (Hclaim "5abc" [] eq_refl eq_refl) as (w' & Hpm & _).
  discriminate Hpm.
Qed.

(** ** One turn of the loop *)

Lemma place_mark_value (w : World) (position : Z) :
  well_formed w ->
  place_mark position w =
    if accepts w position then Ok true (marked (position - 1) w)
    else Ok false w.
Proof.
  intros Hw. unfold accepts.
  destruct (Z_lt_le_dec position 1) as [Hlt | Hge].
  { rewrite place_mark_out_of_range by now left.
    replace (1 <=? position) with false by (symmetry; lia). reflexivity. }
  destruct (Z_gt_le_dec position 9) as [Hgt | Hle].
  { rewrite place_mark_out_of_range by now right.
    replace (position <=? 9) with false by (symmetry; lia).
    now rewrite andb_false_r. }
  replace (1 <=? position) with true by (symmetry; lia).
  replace (position <=? 9) with true by (symmetry; lia).
  assert (Hi : in_bounds (position - 1) = true) by (apply in_bounds_spec; lia).
  destruct (in_bounds_lookup _ _ Hw Hi) as [cell Hcell].
  rewrite (place_mark_in_range w position cell Hw (conj Hge Hle) Hcell), Hcell.
  reflexivity.
Qed.

Lemma run_loop_unfold (fuel : nat) (w : World) :
  run_loop (S fuel) w =
    match iteration w with
    | Ok true w' => run_loop fuel w'
    | Ok false w' => Ok tt w'
    | Exited code w' => Exited code w'
    | Undefined => Undefined
    | OutOfFuel => OutOfFuel
    end.
Proof.
  cbn [run_loop]. unfold iteration, turn_input, turn_checks, bind.
  destruct (draw_board w) as [[] w1 | | |]; try reflexivity.
  destruct (prompt_move w1) as [[|] w2 | | |]; try reflexivity.
  cbn [negb].
  destruct (has_winner w2) as [won w3 | | |]; try reflexivity.
  destruct (note (EvWinCheck won) w3) as [[] w4 | | |]; try reflexivity.
  destruct won.
  - destruct (draw_board w4) as [[] w5 | | |]; try reflexivity.
  - destruct (is_draw w4) as [isfull w5 | | |]; try reflexivity.
    destruct (note (EvDrawCheck isfull) w5) as [[] w6 | | |]; try reflexivity.
    destruct isfull.
    + destruct (draw_board w6) as [[] w7 | | |]; try reflexivity.
    + destruct (swap_player w6) as [[] w7 | | |]; reflexivity.
Qed.

Lemma well_formed_marked (w : World) (index : Z) :
  well_formed w -> well_formed (marked index w).
Proof. unfold well_formed. cbn. now rewrite length_insert. Qed.

Lemma turn_checks_value (w : World) :
  well_formed w -> turn_checks w = after_move w.
Proof.
  intros Hw. unfold turn_checks. unfold bind at 1.
  rewrite (has_winner_value w Hw).
  unfold after_move. fold (winner (board_ (game w))).
  destruct (winner (board_ (game w))).
  - unfold bind at 1. cbn [note]. unfold bind at 1.
    rewrite draw_board_value by exact Hw. reflexivity.
  - unfold bind at 1. cbn [note]. unfold bind at 1, is_draw.
    rewrite is_draw_from_spec. cbn [add_log game board_].
    fold (full (board_ (game w))).
    destruct (full (board_ (game w))).
    + unfold bind at 1. cbn [note]. unfold bind at 1.
      rewrite draw_board_value by exact Hw. reflexivity.
    + reflexivity.
Qed.

(** What the first half of a turn does, by the line it reads. *)
Lemma turn_input_value (w : World) :
  well_formed w ->
  turn_input w =
    match cin w with
    | [] => Exited 0 (said MSG_CLOSED (prompted (drawn w)))
    | line :: rest =>
        let asked := consumed rest (prompted (drawn w)) in
        match stoi line with
        | stoi_value choice =>
            if accepts w choice then Ok true (marked (choice - 1) asked)
            else Ok false (said MSG_INVALID asked)
        | stoi_invalid_argument | stoi_out_of_range =>
            Ok false (said MSG_PARSE asked)
        end
    end.
Proof.
  intros Hw. unfold turn_input. unfold bind at 1.
  rewrite (draw_board_value w Hw). fold (drawn w).
  destruct (cin w) as [| line rest] eqn:Hcin.
  - now apply prompt_move_closed.
  - rewrite (prompt_move_line (drawn w) line rest) by exact Hcin.
    destruct (stoi line) as [choice | |]; try reflexivity.
    rewrite place_mark_value by exact Hw.
    change (accepts (consumed rest (prompted (drawn w))) choice)
      with (accepts w choice).
    destruct (accepts w choice); reflexivity.
Qed.

Lemma iteration_step (w : World) :
  well_formed w -> iteration w = step w.
Proof.
  intros Hw. unfold iteration, step. unfold bind at 1.
  rewrite (turn_input_value w Hw).
  destruct (cin w) as [| line rest]; [reflexivity |].
  cbv zeta. destruct (stoi line) as [choice | |]; try reflexivity.
  destruct (accepts w choice); [| reflexivity].
  cbn [negb]. apply turn_checks_value.
  apply well_formed_marked. exact Hw.
Qed.

(** ** Counting marks *)

Lemma count_insert_new (mark old : ascii) (b : list ascii) (i : nat) :
  b !! i = Some old -> old <> mark ->
  count mark (<[i := mark]> b) = S (count mark b).
Proof.
  revert i. induction b as [| cell rest IH]; intros i Hi Hne; [discriminate Hi |].
  destruct i as [| i].
  - cbn in Hi. injection Hi as ->. cbn [count].
    change (<[0%nat := mark]> (old :: rest)) with (mark :: rest).
    cbn [count]. rewrite Ascii.eqb_refl.
    apply Ascii.eqb_neq in Hne. rewrite Hne. reflexivity.
  - change (<[S i := mark]> (cell :: rest)) with (cell :: <[i := mark]> rest).
    cbn [count]. rewrite (IH i Hi Hne). lia.
Qed.

Lemma count_insert_other (mark old counted : ascii) (b : list ascii) (i : nat) :
  b !! i = Some old -> old <> counted -> mark <> counted ->
  count counted (<[i := mark]> b) = count counted b.
Proof.
  revert i. induction b as [| cell rest IH]; intros i Hi Hold Hmark;
    [discriminate Hi |].
  destruct i as [| i].
  - cbn in Hi. injection Hi as ->.
    change (<[0%nat := mark]> (old :: rest)) with (mark :: rest).
    cbn [count]. apply Ascii.eqb_neq in Hold, Hmark.
    rewrite Hold, Hmark. reflexivity.
  - change (<[S i := mark]> (cell :: rest)) with (cell :: <[i := mark]> rest).
    cbn [count]. rewrite (IH i Hi Hold Hmark). reflexivity.
Qed.

Lemma accepts_spec (w : World) (position : Z) :
  accepts w position = true <->
  1 <= position <= 9 /\
  board_ (game w) !! Z.to_nat (position - 1) = Some EMPTY.
Proof.
  unfold accepts. rewrite !andb_true_iff, !Z.leb_le.
  destruct (board_ (game w) !! Z.to_nat (position - 1)) as [cell |].
  - rewrite eqb_EMPTY. split.
    + intros [Hrange ->]. split; [exact Hrange | reflexivity].
    + intros [Hrange Heq]. injection Heq as ->. split; [exact Hrange | reflexivity].
  - split; [intros [_ Habs]; discriminate Habs | intros [_ Habs]; discriminate Habs].
Qed.

(** ** The invariant of the loop *)

Lemma run_prologue_value (input : list string) :
  run_prologue (initial_world input)
    = Ok tt (said MSG_WELCOME (reset_world input)).
Proof. reflexivity. Qed.

Lemma invariant_reset (input : list string) :
  phase_invariant AwaitingMove (said MSG_WELCOME (reset_world input)).
Proof.
  split; [reflexivity |]. split; [| split; [apply Forall_nil_2 |]].
  - cbn. repeat (apply Forall_cons_2; [now left |]). apply Forall_nil_2.
  - split; [left; split; reflexivity | reflexivity].
Qed.

(** Placing the mark of the player to move on an empty cell. *)
Lemma invariant_marked (w : World) (choice : Z) (rest : list string) :
  phase_invariant AwaitingMove w ->
  accepts w choice = true ->
  phase_invariant MoveAccepted
    (marked (choice - 1) (consumed rest (prompted (drawn w)))).
Proof.
  intros (Hw & Hcells & Hlog & Hturn & _) Hacc.
  apply accepts_spec in Hacc as [Hrange Hcell].
  assert (Hlt : (Z.to_nat (choice - 1) < length (board_ (game w)))%nat)
    by (apply lookup_lt_is_Some; eauto).
  assert (Hplayer : current_player_ (game w) = MARK_X \/
                    current_player_ (game w) = MARK_O)
    by (destruct Hturn as [[H _] | [H _]]; tauto).
  split; [now apply well_formed_marked |].
  cbn [marked consumed prompted drawn add_cout add_log set_board game board_
       current_player_ log].
  split; [| split].
  - apply Forall_insert; [exact Hcells |]. unfold cell_value. tauto.
  - apply Forall_app. split.
    + eapply Forall_impl; [exact Hlog |].
      intros [player index | | | | |]; cbn [on_board]; try tauto.
      intros (Hin & Hne & Hat). split; [exact Hin |]. split; [exact Hne |].
      rewrite list_lookup_insert_ne; [exact Hat |].
      intros Heq. rewrite Heq, Hat in Hcell. injection Hcell as ->.
      now apply Hne.
    + apply Forall_cons_2; [| apply Forall_nil_2]. cbn [on_board].
      split; [apply in_bounds_spec; lia |].
      split; [destruct Hplayer as [-> | ->]; discriminate |].
      now apply list_lookup_insert_eq.
  - unfold has_moved. cbn [board_ current_player_].
    destruct Hturn as [[Hp Hcount] | [Hp Hcount]]; rewrite Hp.
    + left. split; [reflexivity |].
      rewrite (count_insert_new MARK_X EMPTY _ _ Hcell) by discriminate.
      rewrite (count_insert_other MARK_X EMPTY MARK_O _ _ Hcell)
        by discriminate.
      now rewrite Hcount.
    + right. split; [reflexivity |].
      rewrite (count_insert_new MARK_O EMPTY _ _ Hcell) by discriminate.
      rewrite (count_insert_other MARK_O EMPTY MARK_X _ _ Hcell)
        by discriminate.
      exact Hcount.
Qed.

Lemma on_board_note (b : list ascii) (l : list event) (e : event) :
  Forall (on_board b) l -> on_board b e -> Forall (on_board b) (l ++ [e]).
Proof.
  intros Hl He. apply Forall_app. split; [exact Hl |].
  apply Forall_cons_2; [exact He | apply Forall_nil_2].
Qed.

(** A world that differs from one of the invariant in its console
    only. *)
Lemma invariant_console (ph : phase) (w w' : World) :
  phase_invariant ph w ->
  game w' = game w -> log w' = log w ->
  phase_invariant ph w'.
Proof.
  unfold phase_invariant, well_formed. intros H Hg Hl. now rewrite Hg, Hl.
Qed.

Lemma invariant_after_move (w : World) :
  phase_invariant MoveAccepted w ->
  match after_move w with
  | Ok true w' => phase_invariant AwaitingMove w'
  | Ok false w' =>
      if winner (board_ (game w)) then phase_invariant Won w'
      else phase_invariant Drawn w'
  | _ => False
  end.
Proof.
  intros (Hw & Hcells & Hlog & Hmoved). unfold after_move.
  destruct (winner (board_ (game w))) eqn:Hwin.
  - split; [exact Hw |]. split; [exact Hcells |].
    split; [| split; [exact Hmoved | exact Hwin]].
    cbn [add_log said add_cout drawn log game].
    apply on_board_note; [| exact I]. apply on_board_note; [exact Hlog | exact I].
  - destruct (full (board_ (game w))) eqn:Hfull.
    + split; [exact Hw |]. split; [exact Hcells |].
      split; [| split; [exact Hmoved | split; [exact Hwin | exact Hfull]]].
      cbn [add_log said add_cout drawn log game].
      repeat (apply on_board_note; [| exact I]). exact Hlog.
    + split; [exact Hw |]. split; [exact Hcells |].
      split; [| split; [| exact Hwin]].
      * cbn [swapped add_log set_current_player log game board_].
        repeat (apply on_board_note; [| exact I]). exact Hlog.
      * cbn [swapped add_log set_current_player log game board_
             current_player_].
        destruct Hmoved as [[Hp Hcount] | [Hp Hcount]]; rewrite Hp.
        -- right. split; [reflexivity | exact Hcount].
        -- left. split; [reflexivity | exact Hcount].
Qed.

Lemma reachable_invariant (ph : phase) (w : World) :
  reachable ph w -> phase_invariant ph w.
Proof.
  induction 1 as [input w Hrun
                 | w w' _ IH Hturn | w w' code _ IH Hturn | w w' _ IH Hturn
                 | w w' _ IH Hturn | w w' _ IH Hwin Hturn
                 | w w' _ IH Hwin Hturn].
  - rewrite run_prologue_value in Hrun. injection Hrun as <-.
    apply invariant_reset.
  - pose proof IH as (Hw & _).
    rewrite (turn_input_value w Hw) in Hturn.
    destruct (cin w) as [| line rest]; [discriminate Hturn |].
    cbv zeta in Hturn.
    destruct (stoi line) as [choice | |];
      [destruct (accepts w choice); [discriminate Hturn |] | |];
      injection Hturn as <-;
      now apply (invariant_console AwaitingMove w).
  - pose proof IH as (Hw & _).
    rewrite (turn_input_value w Hw) in Hturn.
    destruct (cin w) as [| line rest].
    + injection Hturn as _ <-.
      apply (invariant_console Terminated w); [exact IH | reflexivity ..].
    + cbv zeta in Hturn.
      destruct (stoi line) as [choice | |];
        [destruct (accepts w choice) |..]; discriminate Hturn.
  - pose proof IH as (Hw & _).
    rewrite (turn_input_value w Hw) in Hturn.
    destruct (cin w) as [| line rest]; [discriminate Hturn |].
    cbv zeta in Hturn.
    destruct (stoi line) as [choice | |]; [| discriminate Hturn ..].
    destruct (accepts w choice) eqn:Hacc; [| discriminate Hturn].
    injection Hturn as <-. now apply invariant_marked.
  - pose proof IH as (Hw & _).
    rewrite (turn_checks_value w Hw) in Hturn.
    pose proof (invariant_after_move w IH) as Hafter.
    rewrite Hturn in Hafter. exact Hafter.
  - pose proof IH as (Hw & _). apply (has_winner_iff w _ Hw) in Hwin.
    rewrite (turn_checks_value w Hw) in Hturn.
    pose proof (invariant_after_move w IH) as Hafter.
    rewrite Hturn, Hwin in Hafter. exact Hafter.
  - pose proof IH as (Hw & _). apply (has_winner_iff w _ Hw) in Hwin.
    rewrite (turn_checks_value w Hw) in Hturn.
    pose proof (invariant_after_move w IH) as Hafter.
    rewrite Hturn, Hwin in Hafter. exact Hafter.
Qed.

Lemma invariant_legal (ph : phase) (w : World) :
  phase_invariant ph w -> legal (game w).
Proof.
  intros (Hw & Hcells & _ & Hph).
  assert (Hturn : to_move (game w) \/ has_moved (game w)).
  { destruct ph; tauto. }
  split; [exact Hw |]. split; [exact Hcells |].
  destruct Hturn as [[[Hp Hc] | [Hp Hc]] | [[Hp Hc] | [Hp Hc]]];
    rewrite Hp, Hc; split; try tauto; lia.
Qed.

(** *** The operations in any order *)

Lemma sound_console (w w' : World) :
  sound_object (game w) -> game w' = game w -> sound_object (game w').
Proof. intros H ->. exact H. Qed.

Lemma sound_marked (w : World) (index : Z) :
  sound_object (game w) -> sound_object (game (marked index w)).
Proof.
  intros (Hlen & Hcells & Hplayer). unfold sound_object. cbn.
  rewrite length_insert. split; [exact Hlen |]. split; [| exact Hplayer].
  apply Forall_insert; [exact Hcells |]. unfold cell_value. tauto.
Qed.

Lemma sound_place_mark (w : World) (position : Z) :
  sound_object (game w) ->
  exists placed w',
    place_mark position w = Ok placed w' /\ sound_object (game w').
Proof.
  intros Hsound. pose proof Hsound as (Hw & _).
  rewrite (place_mark_value w position Hw).
  destruct (accepts w position); do 2 eexists; (split; [reflexivity |]);
    [now apply sound_marked | exact Hsound].
Qed.

Lemma perform_one_sound (op : operation) (w : World) :
  sound_object (game w) ->
  match perform_one op w with
  | Ok _ w' | Exited _ w' => sound_object (game w')
  | Undefined | OutOfFuel => False
  end.
Proof.
  intros Hsound. pose proof Hsound as (Hw & Hcells & Hplayer).
  destruct op as [| | | position | | |]; cbn [perform_one].
  - cbn. split; [reflexivity |]. split; [| now left].
    repeat (apply Forall_cons_2; [now left |]). apply Forall_nil_2.
  - rewrite (draw_board_value w Hw). exact Hsound.
  - unfold bind. destruct (cin w) as [| line rest] eqn:Hcin.
    + rewrite (prompt_move_closed w Hcin). exact Hsound.
    + rewrite (prompt_move_line w line rest Hcin).
      destruct (stoi line) as [choice | |]; try exact Hsound.
      destruct (sound_place_mark (consumed rest (prompted w)) choice Hsound)
        as (placed & w' & -> & Hsound').
      destruct placed; exact Hsound'.
  - unfold bind.
    destruct (sound_place_mark w position Hsound) as (placed & w' & -> & Hsound').
    exact Hsound'.
  - unfold bind. rewrite (has_winner_value w Hw). exact Hsound.
  - unfold bind, is_draw. rewrite is_draw_from_spec. exact Hsound.
  - cbn. split; [exact Hw |]. split; [exact Hcells |].
    destruct (Ascii.eqb (current_player_ (game w)) MARK_X);
      [right | left]; reflexivity.
Qed.

Lemma perform_sound (ops : list operation) (w : World) :
  sound_object (game w) ->
  match perform ops w with
  | Ok _ w' | Exited _ w' => sound_object (game w')
  | Undefined | OutOfFuel => False
  end.
Proof.
  revert w. induction ops as [| op rest IH]; intros w Hsound; [exact Hsound |].
  cbn [perform]. unfold bind.
  pose proof (perform_one_sound op w Hsound) as Hone.
  destruct (perform_one op w) as [[] w1 | code w1 | |];
    [now apply IH | exact Hone | exact Hone | exact Hone].
Qed.

(** C10, as the code has it.  After [reset()], whatever methods are
    called and in whatever order, the call never reaches outside the
    array, the array has nine cells that are empty, X or O, and the
    current player is X or O.  In every state a session passes through --
    the calls in the order of [run()]: at the head of the loop, between
    the mark and the checks, and at its end -- the X on the board are
    moreover as many as the O or one more. *)
Theorem legal_states :
  (forall (ops : list operation) (w : World),
     match (reset ;; perform ops) w with
     | Ok _ w' | Exited _ w' => sound_object (game w')
     | Undefined | OutOfFuel => False
     end) /\
  (forall (ph : phase) (w : World), reachable ph w -> legal (game w)).
Proof.
  split.
  - intros ops w. unfold bind at 1.
    change (reset w)
      with (Ok tt (set_current_player MARK_X
                     (set_board (replicate 9 EMPTY) w))).
    apply perform_sound.
    cbn. split; [reflexivity |]. split; [| now left].
    repeat (apply Forall_cons_2; [now left |]). apply Forall_nil_2.
  - intros ph w Hreach. apply (invariant_legal ph).
    now apply reachable_invariant.
Qed.

(** C10, as stated, fails: two calls of [place_mark] with no
    [swap_player] between them, after [reset()], leave two X and no O on
    the board. *)
Lemma operations_counterexample :
  (reset ;; perform [OpPlaceMark 1; OpPlaceMark 2]) (initial_world [])
    = Ok tt (marked 1 (marked 0 (reset_world []))) /\
  count MARK_X (board_ (game (marked 1 (marked 0 (reset_world []))))) = 2%nat /\
  count MARK_O (board_ (game (marked 1 (marked 0 (reset_world []))))) = 0%nat /\
  ~ legal (game (marked 1 (marked 0 (reset_world [])))) /\
  ~ legal_after_any_operations.
Proof.
  assert (Hrun : (reset ;; perform [OpPlaceMark 1; OpPlaceMark 2])
                   (initial_world [])
                 = Ok tt (marked 1 (marked 0 (reset_world []))))
    by (vm_compute; reflexivity).
  assert (Hno : ~ legal (game (marked 1 (marked 0 (reset_world []))))).
  { intros (_ & _ & _ & Hbalance).
    change (2 - 0 = 0 \/ 2 - 0 = 1) in Hbalance. lia. }
  split; [exact Hrun |]. split; [reflexivity |]. split; [reflexivity |].
  split; [exact Hno |].
  intros Hclaim. apply Hno. exact (Hclaim _ _ _ Hrun).
Qed.

(** ** Sessions *)

(** A turn that applies no move hands the same game to the next turn. *)
Lemma run_loop_no_move
    (fuel : nat) (w w1 : World) (P : World -> phase -> list event -> Prop) :
  (forall w', reachable AwaitingMove w' -> (length (cin w') < fuel)%nat ->
              exists wf ph tail,
                run_loop fuel w' = finish tt ph wf /\
                log wf = log w' ++ tail /\
                session_log (current_player_ (game w')) tail ph
                  (current_player_ (game wf)) /\
                P wf ph tail) ->
  reachable AwaitingMove w ->
  turn_input w = Ok false w1 ->
  (length (cin w1) < fuel)%nat ->
  game w1 = game w -> log w1 = log w ->
  exists wf ph tail,
    run_loop (S fuel) w = finish tt ph wf /\
    log wf = log w ++ tail /\
    session_log (current_player_ (game w)) tail ph
      (current_player_ (game wf)) /\
    P wf ph tail.
Proof.
  intros IH Hreach Hturn Hlen Hgame Hlog.
  assert (Hr1 : reachable AwaitingMove w1) by (eapply reach_no_move; eauto).
  destruct (IH w1 Hr1 Hlen) as (wf & ph & tail & Hrun & Hl & Hs & HP).
  exists wf, ph, tail.
  rewrite run_loop_unfold. unfold iteration, bind. rewrite Hturn. cbn [negb].
  unfold ret. rewrite <- Hgame, <- Hlog. auto.
Qed.

Lemma run_loop_sound (fuel : nat) (w : World) :
  reachable AwaitingMove w ->
  (length (cin w) < fuel)%nat ->
  exists (wf : World) (ph : phase) (tail : list event),
    run_loop fuel w = finish tt ph wf /\
    log wf = log w ++ tail /\
    session_log (current_player_ (game w)) tail ph
      (current_player_ (game wf)) /\
    (terminal ph /\ reachable ph wf /\ ending ph wf).
Proof.
  revert w. induction fuel as [| fuel IH]; intros w Hreach Hlen; [lia |].
  pose proof (reachable_invariant _ _ Hreach) as (Hw & _).
  pose proof (turn_input_value w Hw) as Hin.
  destruct (cin w) as [| line rest] eqn:Hcin.
  - exists (said MSG_CLOSED (prompted (drawn w))), Terminated, [].
    rewrite run_loop_unfold. unfold iteration, bind. rewrite Hin.
    split; [reflexivity |]. split; [cbn; now rewrite app_nil_r |].
    split; [constructor |].
    split; [right; now right |].
    split; [eapply reach_closed; eauto |].
    exists w. auto.
  - cbv zeta in Hin. cbn [length] in Hlen.
    assert (Hrest : (length rest < fuel)%nat) by lia.
    destruct (stoi line) as [choice | |];
      [destruct (accepts w choice) eqn:Hacc |..];
      try (apply (run_loop_no_move fuel w _ _ IH Hreach Hin);
           [exact Hrest | reflexivity | reflexivity]).
    set (w1 := marked (choice - 1) (consumed rest (prompted (drawn w)))) in *.
    assert (Hr1 : reachable MoveAccepted w1) by (eapply reach_accepted; eauto).
    assert (Hw1 : well_formed w1) by (now apply well_formed_marked).
    pose proof (turn_checks_value w1 Hw1) as Hchk.
    rewrite run_loop_unfold. unfold iteration, bind. rewrite Hin. cbn [negb].
    unfold after_move in Hchk.
    destruct (winner (board_ (game w1))) eqn:Hwin;
      [| destruct (full (board_ (game w1))) eqn:Hfull].
    + rewrite Hchk.
      eexists _, Won,
        [EvMark (current_player_ (game w)) (choice - 1);
         EvWinCheck true; EvAnnounceWin (current_player_ (game w))].
      split; [reflexivity |].
      split; [cbn; now rewrite <- !app_assoc |].
      split; [constructor |].
      split; [now left |].
      split; [eapply reach_won; eauto; now apply has_winner_iff |].
      exists (add_log (EvWinCheck true) w1). reflexivity.
    + rewrite Hchk.
      eexists _, Drawn,
        [EvMark (current_player_ (game w)) (choice - 1);
         EvWinCheck false; EvDrawCheck true; EvAnnounceDraw].
      split; [reflexivity |].
      split; [cbn; now rewrite <- !app_assoc |].
      split; [constructor |].
      split; [right; now left |].
      split; [eapply reach_drawn; eauto; now apply has_winner_iff |].
      exists (add_log (EvDrawCheck true) (add_log (EvWinCheck false) w1)).
      reflexivity.
    + rewrite Hchk.
      set (w2 := swapped (add_log (EvDrawCheck false)
                            (add_log (EvWinCheck false) w1))) in *.
      assert (Hr2 : reachable AwaitingMove w2)
        by (eapply reach_swapped; eauto).
      destruct (IH w2 Hr2 Hrest) as (wf & ph & tail & Hrun & Hl & Hs & HP).
      exists wf, ph,
        (EvMark (current_player_ (game w)) (choice - 1) ::
         EvWinCheck false :: EvDrawCheck false :: EvSwap :: tail).
      split; [exact Hrun |].
      split; [rewrite Hl; cbn; now rewrite <- !app_assoc |].
      split; [constructor; exact Hs | exact HP].
Qed.

Lemma run_value (fuel : nat) (input : list string) :
  run fuel (initial_world input)
    = run_loop fuel (said MSG_WELCOME (reset_world input)).
Proof. reflexivity. Qed.

Lemma main_value (fuel : nat) (w : World) :
  main fuel w =
    match run fuel w with
    | Ok _ w' => Ok 0 w'
    | Exited code w' => Exited code w'
    | Undefined => Undefined
    | OutOfFuel => OutOfFuel
    end.
Proof. reflexivity. Qed.

Lemma reachable_start (input : list string) :
  reachable AwaitingMove (said MSG_WELCOME (reset_world input)).
Proof. apply (reach_reset input). reflexivity. Qed.

(** Every session comes to an end in a terminal state, with a log of the
    shape of [session_log]. *)
Lemma run_sound (input : list string) :
  exists (wf : World) (ph : phase),
    run (enough_fuel input) (initial_world input) = finish tt ph wf /\
    session_log MARK_X (log wf) ph (current_player_ (game wf)) /\
    terminal ph /\ reachable ph wf /\ ending ph wf.
Proof.
  destruct (run_loop_sound (enough_fuel input)
              (said MSG_WELCOME (reset_world input)))
    as (wf & ph & tail & Hrun & Hlog & Hsession & Hend).
  - apply reachable_start.
  - unfold enough_fuel. cbn. lia.
  - exists wf, ph. rewrite run_value. split; [exact Hrun |].
    cbn in Hlog. rewrite Hlog. split; [exact Hsession | exact Hend].
Qed.

(** *** Shapes of logs *)

Lemma other_involutive (player : ascii) :
  player = MARK_X \/ player = MARK_O -> other (other player) = player.
Proof. intros [-> | ->]; reflexivity. Qed.

Lemma other_player (player : ascii) :
  player = MARK_X \/ player = MARK_O ->
  other player = MARK_X \/ other player = MARK_O.
Proof. intros [-> | ->]; [right | left]; reflexivity. Qed.

Lemma session_log_movers
    (mover : ascii) (l : list event) (ph : phase) (last : ascii) :
  session_log mover l ph last ->
  mover = MARK_X \/ mover = MARK_O ->
  forall (k : nat) (player : ascii),
    movers l !! k = Some player ->
    player = if Nat.even k then mover else other mover.
Proof.
  induction 1 as [mover | mover index | mover index
                 | mover index rest ph last _ IH];
    intros Hmover k player Hk.
  - discriminate Hk.
  - destruct k as [| k]; [| discriminate Hk]. now injection Hk as <-.
  - destruct k as [| k]; [| discriminate Hk]. now injection Hk as <-.
  - cbn [movers] in Hk. destruct k as [| k]; [now injection Hk as <- |].
    cbn in Hk. rewrite (IH (other_player _ Hmover) k player Hk).
    rewrite Nat.even_succ, <- Nat.negb_even.
    rewrite (other_involutive _ Hmover).
    now destruct (Nat.even k).
Qed.

Lemma session_log_follows_mark
    (mover : ascii) (l : list event) (ph : phase) (last : ascii) :
  session_log mover l ph last ->
  forall (pre : list event) (player : ascii) (index : Z) (post : list event),
    l = pre ++ EvMark player index :: post ->
    follows_mark player ph post.
Proof.
  induction 1 as [mover | mover index0 | mover index0
                 | mover index0 rest ph last _ IH];
    intros pre player index post Heq.
  - destruct pre; discriminate Heq.
  - destruct pre as [| e0 [| e1 [| e2 [| e3 pre]]]]; try discriminate Heq.
    injection Heq as <- _ <-. exists true. eauto.
  - destruct pre as [| e0 [| e1 [| e2 [| e3 [| e4 pre]]]]];
      try discriminate Heq.
    injection Heq as <- _ <-. exists false. eexists. split; [reflexivity |].
    exists true. eauto.
  - destruct pre as [| e0 [| e1 [| e2 [| e3 pre]]]]; try discriminate Heq.
    + injection Heq as <- _ <-. exists false. eexists. split; [reflexivity |].
      exists false. eauto.
    + injection Heq as _ _ _ _ Heq. exact (IH pre player index post Heq).
Qed.

(** A session that ends with a win or a draw does not swap after its
    last mark, which is the mark of the player current at the end. *)
Lemma session_log_last_round
    (mover : ascii) (l : list event) (ph : phase) (last : ascii) :
  session_log mover l ph last ->
  ph = Won \/ ph = Drawn ->
  exists (pre : list event) (index : Z) (post : list event),
    l = pre ++ EvMark last index :: post /\
    Forall (fun e => e <> EvSwap) post.
Proof.
  induction 1 as [mover | mover index | mover index
                 | mover index rest ph last _ IH]; intros Hph.
  - destruct Hph; discriminate.
  - exists [], index. eexists. split; [reflexivity |].
    repeat (apply Forall_cons_2; [discriminate |]). apply Forall_nil_2.
  - exists [], index. eexists. split; [reflexivity |].
    repeat (apply Forall_cons_2; [discriminate |]). apply Forall_nil_2.
  - destruct (IH Hph) as (pre & i & post & -> & Hno).
    exists (EvMark mover index :: EvWinCheck false :: EvDrawCheck false ::
            EvSwap :: pre), i, post.
    split; [reflexivity | exact Hno].
Qed.

Lemma cout_said_suffix (s : string) (w : World) :
  cout (said s w) = cout w +:+ s +:+ endl.
Proof. cbn. now rewrite append_assoc. Qed.

Lemma session_log_won
    (mover : ascii) (l : list event) (ph : phase) (last : ascii) :
  session_log mover l ph last ->
  ph = Won ->
  exists (pre : list event) (index : Z),
    l = pre ++ [EvMark last index; EvWinCheck true; EvAnnounceWin last].
Proof.
  induction 1 as [mover | mover index | mover index
                 | mover index rest ph last _ IH]; intros Hph;
    try discriminate Hph.
  - exists [], index. reflexivity.
  - destruct (IH Hph) as (pre & i & ->).
    exists (EvMark mover index :: EvWinCheck false :: EvDrawCheck false ::
            EvSwap :: pre), i.
    reflexivity.
Qed.

Lemma terminal_winner (ph : phase) (w : World) :
  terminal ph -> phase_invariant ph w ->
  (has_winner w = Ok true w <-> ph = Won).
Proof.
  intros Hterm Hinv. pose proof Hinv as (Hw & _).
  rewrite (has_winner_iff w true Hw). revert Hterm Hinv.
  intros [-> | [-> | ->]] (_ & _ & _ & Hph).
  - destruct Hph as [_ Hwin]. tauto.
  - destruct Hph as (_ & Hwin & _). rewrite Hwin. split; discriminate.
  - destruct Hph as [_ Hwin]. rewrite Hwin. split; discriminate.
Qed.

(** C5.  Once a mark is placed, and before any swap, the win check runs
    on the board that holds the mark: if a line is complete the turn ends
    the loop in the state Won, whether or not the board is full, with the
    game as the move left it and the announcement naming the current
    player, who is the mover.  In the log of every session a mark is
    followed at once by the win check; a win is announced for the player
    of that mark; the draw check comes only after a win check that failed
    and the swap only after both failed.  A session whose last board
    holds a line ended in Won. *)
Theorem win_check_order :
  (forall w : World,
     reachable MoveAccepted w ->
     has_winner w = Ok true w ->
     exists w',
       turn_checks w = Ok false w' /\
       reachable Won w' /\
       game w' = game w /\
       exists before,
         cout w' = before +:+ win_text (current_player_ (game w)) +:+ endl) /\
  (forall input : list string,
     exists (wf : World) (ph : phase),
       run (enough_fuel input) (initial_world input) = finish tt ph wf /\
       terminal ph /\
       (forall pre player index post,
          log wf = pre ++ EvMark player index :: post ->
          board_ (game wf) !! Z.to_nat index = Some player /\
          follows_mark player ph post) /\
       (has_winner wf = Ok true wf <-> ph = Won) /\
       (ph = Drawn -> is_draw wf = Ok true wf) /\
       (ph = Won ->
        exists pre index before,
          log wf = pre ++ [EvMark (current_player_ (game wf)) index;
                           EvWinCheck true;
                           EvAnnounceWin (current_player_ (game wf))] /\
          cout wf
            = before +:+ win_text (current_player_ (game wf)) +:+ endl)).
Proof.
  split.
  - intros w Hreach Hwin.
    pose proof (reachable_invariant _ _ Hreach) as (Hw & _).
    pose proof (turn_checks_value w Hw) as Hchk.
    unfold after_move in Hchk.
    rewrite (proj1 (has_winner_iff w true Hw) Hwin) in Hchk.
    eexists. split; [exact Hchk |].
    split; [eapply reach_won; eauto |].
    split; [reflexivity |].
    eexists. unfold add_log at 1. cbn [cout].
    rewrite cout_said_suffix. reflexivity.
  - intros input.
    destruct (run_sound input) as (wf & ph & Hrun & Hlog & Hterm & Hreach & Hend).
    exists wf, ph.
    pose proof (reachable_invariant _ _ Hreach) as Hinv.
    split; [exact Hrun |]. split; [exact Hterm |].
    split; [| split; [now apply terminal_winner | split]].
    + intros pre player index post Heq. split.
      * destruct Hinv as (_ & _ & Hmarks & _).
        rewrite Heq in Hmarks. apply Forall_app in Hmarks as [_ Hmarks].
        apply Forall_cons_1 in Hmarks as [Hmark _].
        now destruct Hmark as (_ & _ & Hat).
      * eapply session_log_follows_mark; eauto.
    + intros ->. apply is_draw_iff.
      now destruct Hinv as (_ & _ & _ & _ & _ & Hfull).
    + intros ->. destruct (session_log_won _ _ _ _ Hlog eq_refl) as (pre & i & Hl).
      destruct Hend as (h & ->).
      exists pre, i. eexists. split; [exact Hl |].
      unfold add_log. cbn [cout game].
      rewrite cout_said_suffix. reflexivity.
Qed.

Lemma session_log_open
    (mover : ascii) (l : list event) (ph : phase) (last : ascii) :
  session_log mover l ph last ->
  mover = MARK_X \/ mover = MARK_O ->
  ph = Terminated ->
  last = if Nat.even (length (movers l)) then mover else other mover.
Proof.
  induction 1 as [mover | mover index | mover index
                 | mover index rest ph last _ IH];
    intros Hmover Hph; try discriminate Hph.
  - reflexivity.
  - cbn [movers length].
    rewrite (IH (other_player _ Hmover) Hph).
    rewrite Nat.even_succ, <- Nat.negb_even.
    rewrite (other_involutive _ Hmover).
    now destruct (Nat.even (length (movers rest))).
Qed.

(** C6.  In every session the players of the successive marks are X, O,
    X, O, ...  A session that ends with a win or a draw -- and it ends
    so exactly when [run] returns -- made no swap after its last mark,
    whose player is still the current one; a session cut short by the
    end of the input leaves as current the player whose turn is next.
    A call of [prompt_move] that applies no move -- the line is no
    number, or the move is rejected -- returns the game as it was.  After
    an accepted move the checks of the turn leave the board alone; they
    swap the player when there is neither a line nor a full board, and
    keep the player when the move wins or draws. *)
Theorem movers_alternate :
  (forall input : list string,
     exists (wf : World) (ph : phase),
       run (enough_fuel input) (initial_world input) = finish tt ph wf /\
       terminal ph /\
       (has_winner wf = Ok true wf <-> ph = Won) /\
       (forall (k : nat) (player : ascii),
          movers (log wf) !! k = Some player ->
          player = if Nat.even k then MARK_X else MARK_O) /\
       (ph = Won \/ ph = Drawn ->
        exists pre index post,
          log wf = pre ++ EvMark (current_player_ (game wf)) index :: post /\
          Forall (fun e => e <> EvSwap) post) /\
       (ph = Terminated ->
        current_player_ (game wf)
          = if Nat.even (length (movers (log wf)))
            then MARK_X else MARK_O)) /\
  (forall w w' : World,
     well_formed w -> prompt_move w = Ok false w' -> game w' = game w) /\
  (forall (w w' : World) (again : bool),
     reachable MoveAccepted w ->
     turn_checks w = Ok again w' ->
     board_ (game w') = board_ (game w) /\
     if again
     then has_winner w = Ok false w /\ is_draw w = Ok false w /\
          current_player_ (game w') = other (current_player_ (game w))
     else (has_winner w = Ok true w \/ is_draw w = Ok true w) /\
          current_player_ (game w') = current_player_ (game w)).
Proof.
  split; [| split].
  - intros input.
    destruct (run_sound input) as (wf & ph & Hrun & Hlog & Hterm & Hreach & _).
    exists wf, ph. split; [exact Hrun |]. split; [exact Hterm |].
    split; [apply terminal_winner;
            [exact Hterm | now apply reachable_invariant] |].
    split; [| split].
    + intros k player Hk.
      apply (session_log_movers _ _ _ _ Hlog (or_introl eq_refl) k player Hk).
    + intros Hph. exact (session_log_last_round _ _ _ _ Hlog Hph).
    + intros Hph.
      exact (session_log_open _ _ _ _ Hlog (or_introl eq_refl) Hph).
  - intros w w' Hw Hpm.
    destruct (cin w) as [| line rest] eqn:Hcin.
    + rewrite prompt_move_closed in Hpm by exact Hcin. discriminate Hpm.
    + rewrite (prompt_move_line w line rest Hcin) in Hpm.
      destruct (stoi line) as [choice | |];
        [| injection Hpm as <-; reflexivity ..].
      rewrite place_mark_value in Hpm by exact Hw.
      destruct (accepts _ choice); [discriminate Hpm |].
      injection Hpm as <-. reflexivity.
  - intros w w' again Hreach Hchk.
    pose proof (reachable_invariant _ _ Hreach) as (Hw & _).
    rewrite (turn_checks_value w Hw) in Hchk. unfold after_move in Hchk.
    destruct (winner (board_ (game w))) eqn:Hwin;
      [| destruct (full (board_ (game w))) eqn:Hfull];
      injection Hchk as <- <-; (split; [reflexivity |]).
    + split; [left; now apply has_winner_iff | reflexivity].
    + split; [right; now apply is_draw_iff | reflexivity].
    + split; [now apply has_winner_iff |].
      split; [now apply is_draw_iff | reflexivity].
Qed.

(** C8.  When no line is left at the prompt, the rest of the program is:
    print "Input stream closed. Exiting.", end the process with status 0;
    the game is the one of the head of that turn and nothing is printed
    after the message.  Every session ends, with status 0: by this exit,
    or by the return of [main] after a win or a draw. *)
Theorem exit_status_zero :
  (forall w : World,
     cin w = [] -> prompt_move w = Exited 0 (said MSG_CLOSED (prompted w))) /\
  (forall (fuel : nat) (w : World),
     well_formed w -> cin w = [] ->
     main_from_loop_head fuel w
       = Exited 0 (said MSG_CLOSED (prompted (drawn w)))) /\
  (forall input : list string,
     exists (wf : World) (ph : phase),
       main (enough_fuel input) (initial_world input) = finish 0 ph wf /\
       exit_status (main (enough_fuel input) (initial_world input)) id
         = Some 0 /\
       terminal ph /\
       (ph = Terminated ->
        exists h,
          reachable AwaitingMove h /\ cin h = [] /\
          wf = said MSG_CLOSED (prompted (drawn h)) /\
          game wf = game h /\
          cout wf
            = cout h +:+ rendering (board_ (game h))
              +:+ prompt_text (current_player_ (game h))
              +:+ MSG_CLOSED +:+ endl)).
Proof.
  split; [exact prompt_move_closed |]. split.
  - intros fuel w Hw Hcin. unfold main_from_loop_head, bind.
    rewrite run_loop_unfold, (iteration_step w Hw). unfold step.
    rewrite Hcin. reflexivity.
  - intros input.
    destruct (run_sound input) as (wf & ph & Hrun & _ & Hterm & _ & Hend).
    exists wf, ph.
    assert (Hmain : main (enough_fuel input) (initial_world input)
                    = finish 0 ph wf).
    { rewrite main_value, Hrun. now destruct ph. }
    split; [exact Hmain |]. rewrite Hmain.
    split; [now destruct ph |]. split; [exact Hterm |].
    intros ->. destruct Hend as (h & Hreach & Hcin & ->).
    exists h. repeat split; try assumption.
    cbn. now rewrite !append_assoc.
Qed.

(** ** A session played out

    X takes the left column with the moves 1, 4, 7 while O plays 2 and
    5. *)

(** One stretch of the session from the world reached so far, by
    evaluation. *)
Ltac play action rule :=
  match goal with
  | H : reachable _ ?w |- _ =>
      let r := eval vm_compute in (action w) in
      match r with
      | Ok ?b ?w' =>
          let H' := fresh "Hreach" in
          pose proof
            (rule w w' H
               (@eq_refl (result bool) (Ok b w') <: action w = Ok b w'))
            as H';
          clear H
      end
  end.

Lemma left_column_reached :
  exists w : World,
    reachable MoveAccepted w /\
    board_ (game w) = left_column_board /\
    current_player_ (game w) = MARK_X.
Proof.
  pose proof (reachable_start left_column_moves) as H.
  play turn_input reach_accepted. play turn_checks reach_swapped.
  play turn_input reach_accepted. play turn_checks reach_swapped.
  play turn_input reach_accepted. play turn_checks reach_swapped.
  play turn_input reach_accepted. play turn_checks reach_swapped.
  play turn_input reach_accepted.
  eexists. split; [exact Hreach |]. split; reflexivity.
Defined.

Lemma legal_states_witness :
  exists w : World,
    reachable MoveAccepted w /\
    board_ (game w) = left_column_board /\
    legal (game w).
Proof.
  destruct left_column_reached as (w & Hreach & Hboard & _).
  exists w. split; [exact Hreach |]. split; [exact Hboard |].
  exact (proj2 legal_states MoveAccepted w Hreach).
Defined.

Lemma win_check_order_witness :
  exists w w' : World,
    reachable MoveAccepted w /\
    board_ (game w) = left_column_board /\
    turn_checks w = Ok false w' /\
    reachable Won w' /\
    game w' = game w.
Proof.
  destruct left_column_reached as (w & Hreach & Hboard & _).
  destruct (proj1 win_check_order w Hreach) as (w' & Hchk & Hwon & Hgame & _).
  - apply has_winner_iff; [exact (eq_trans (f_equal length Hboard) eq_refl) |].
    rewrite Hboard. reflexivity.
  - exists w, w'. auto.
Defined.

Lemma movers_alternate_witness :
  (exists (wf : World) (pre : list event) (index : Z) (post : list event),
     run (enough_fuel left_column_moves) (initial_world left_column_moves)
       = Ok tt wf /\
     log wf = pre ++ EvMark (current_player_ (game wf)) index :: post /\
     Forall (fun e => e <> EvSwap) post) /\
  game (said MSG_PARSE (consumed [] (prompted (reset_world ["abc"]))))
    = game (reset_world ["abc"]) /\
  (exists w w' : World,
     board_ (game w) = left_column_board /\
     turn_checks w = Ok false w' /\
     current_player_ (game w') = current_player_ (game w)).
Proof.
  destruct movers_alternate as (Hsession & Hrefused & Hchecks).
  split; [| split].
  - destruct (Hsession left_column_moves)
      as (wf & ph & Hrun & Hterm & _ & _ & Hlast & _).
    assert (Hph : ph = Won \/ ph = Drawn).
    { destruct Hterm as [-> | [-> | ->]]; [now left | now right |].
      vm_compute in Hrun. discriminate Hrun. }
    destruct (Hlast Hph) as (pre & index & post & Hlog & Hno).
    exists wf, pre, index, post. split; [| split; assumption].
    rewrite Hrun. now destruct Hph as [-> | ->].
  - apply (Hrefused (reset_world ["abc"])); reflexivity.
  - destruct left_column_reached as (w & Hreach & Hboard & _).
    assert (Hw : well_formed w)
      by exact (eq_trans (f_equal length Hboard) eq_refl).
    pose proof (turn_checks_value w Hw) as Hchk. unfold after_move in Hchk.
    rewrite Hboard in Hchk.
    change (winner left_column_board) with true in Hchk. cbv iota in Hchk.
    destruct (Hchecks w _ false Hreach Hchk) as (_ & _ & Hplayer).
    eexists w, _. split; [exact Hboard |]. split; [exact Hchk | exact Hplayer].
Defined.

Lemma exit_status_zero_witness :
  prompt_move (reset_world [])
    = Exited 0 (said MSG_CLOSED (prompted (reset_world []))).
Proof.
  apply (proj1 exit_status_zero (reset_world [])). reflexivity.
Defined.

Lemma is_draw_spec_witness :
  exists full : bool,
    is_draw (set_board full_board_with_line (reset_world []))
      = Ok full (set_board full_board_with_line (reset_world [])) /\
    full = true.
Proof.
  destruct (is_draw_spec (set_board full_board_with_line (reset_world [])))
    as (full & Hdraw & _ & _ & Hline).
  exists full. split; [exact Hdraw |].
  apply Hline; [| reflexivity].
  apply forallb_non_empty. reflexivity.
Defined.

(** The balance of the marks is the work of the loop, which swaps the
    player between two marks: [place_mark] alone, called twice in a row
    as [run] never does, places two X. *)
Remark place_mark_twice :
  exists w1 w2 : World,
    place_mark 1 (reset_world []) = Ok true w1 /\
    place_mark 2 w1 = Ok true w2 /\
    count MARK_X (board_ (game w2)) = 2%nat /\
    count MARK_O (board_ (game w2)) = 0%nat.
Proof.
  exists (marked 0 (reset_world [])), (marked 1 (marked 0 (reset_world []))).
  repeat split; vm_compute; reflexivity.
Qed.

(** The scenarios of the specification, run. *)

Example left_column_session :
  exists w,
    main (enough_fuel left_column_moves) (initial_world left_column_moves)
      = Ok 0 w /\
    board_ (game w) = left_column_board /\
    last (log w) = Some (EvAnnounceWin MARK_X).
Proof. eexists. split; [vm_compute; reflexivity |]. split; reflexivity. Qed.

Example drawn_session :
  exists w,
    main (enough_fuel drawn_game_moves) (initial_world drawn_game_moves)
      = Ok 0 w /\
    last (log w) = Some EvAnnounceDraw /\
    has_winner w = Ok false w.
Proof. eexists. split; [vm_compute; reflexivity |]. split; reflexivity. Qed.

Example occupied_cell_session :
  exists w,
    main (enough_fuel ["5"; "5"]) (initial_world ["5"; "5"]) = Exited 0 w /\
    movers (log w) = [MARK_X] /\
    current_player_ (game w) = MARK_O.
Proof. eexists. split; [vm_compute; reflexivity |]. split; reflexivity. Qed.

(** * Further properties of the code *)

(** ** [reset] and [swap_player] *)

(** X1.  [reset] makes a new game of any object, whatever its array and its
    player held: nine empty cells and X to move, on which there is no
    winner, no draw, and every position from 1 to 9 is accepted; the
    console is not touched. *)
Theorem reset_fresh (w : World) :
  exists w',
    reset w = Ok tt w' /\
    game w' = mkTicTacToe (replicate 9 EMPTY) MARK_X /\
    cin w' = cin w /\ cout w' = cout w /\ log w' = log w /\
    has_winner w' = Ok false w' /\
    is_draw w' = Ok false w' /\
    forall position, 1 <= position <= 9 ->
      place_mark position w' = Ok true (marked (position - 1) w').
Proof.
  eexists. split; [reflexivity |].
  cbn [set_current_player set_board game cin cout log board_ current_player_].
  repeat (split; [reflexivity |]).
  intros position Hrange.
  rewrite place_mark_value by reflexivity.
  replace (accepts _ position) with true; [reflexivity |].
  symmetry. apply accepts_spec. split; [exact Hrange |].
  cbn [game board_]. apply lookup_replicate_2. lia.
Qed.

(** X2.  [swap_player] leaves X or O to move whatever the player was: O after
    X, and X after anything else.  It touches neither the board nor the
    console, and two swaps give back the game of a player X or O. *)
Theorem swap_player_spec (w : World) :
  exists w',
    swap_player w = Ok tt w' /\
    board_ (game w') = board_ (game w) /\
    cin w' = cin w /\ cout w' = cout w /\
    (current_player_ (game w') = MARK_X \/
     current_player_ (game w') = MARK_O) /\
    (current_player_ (game w) = MARK_X ->
     current_player_ (game w') = MARK_O) /\
    (current_player_ (game w) <> MARK_X ->
     current_player_ (game w') = MARK_X) /\
    (current_player_ (game w) = MARK_X \/
     current_player_ (game w) = MARK_O ->
     exists w'', swap_player w' = Ok tt w'' /\ game w'' = game w).
Proof.
  exists (swapped w). split; [reflexivity |].
  cbn [swapped add_log set_current_player game board_ current_player_ cin cout].
  repeat (split; [reflexivity |]).
  destruct w as [[b p] input output events]. cbn [game current_player_ board_].
  unfold other. split; [| split; [| split]].
  - destruct (Ascii.eqb p MARK_X); [right | left]; reflexivity.
  - intros ->. reflexivity.
  - intros Hne. apply Ascii.eqb_neq in Hne. now rewrite Hne.
  - intros Hp. eexists. split; [reflexivity |].
    cbn [swapped add_log set_current_player game board_ current_player_].
    fold (other p). fold (other (other p)). now rewrite other_involutive.
Qed.

Lemma swap_player_spec_witness :
  exists w'',
    swap_player (swapped (reset_world [])) = Ok tt w'' /\
    game w'' = game (reset_world []).
Proof.
  destruct (swap_player_spec (reset_world []))
    as (w' & Hswap & _ & _ & _ & _ & _ & _ & Hback).
  injection Hswap as <-.
  apply Hback. left. reflexivity.
Defined.

Lemma reset_fresh_witness :
  exists w',
    reset (initial_world []) = Ok tt w' /\
    place_mark 9 w' = Ok true (marked 8 w').
Proof.
  destruct (reset_fresh (initial_world []))
    as (w' & Hreset & _ & _ & _ & _ & _ & _ & Hplace).
  exists w'. split; [exact Hreset |].
  apply (Hplace 9). lia.
Defined.

(** ** [place_mark], called again *)

Lemma place_mark_cases (w w' : World) (position : Z) (placed : bool) :
  well_formed w ->
  place_mark position w = Ok placed w' ->
  (placed = false /\ w' = w) \/
  (placed = true /\ w' = marked (position - 1) w /\
   1 <= position <= 9 /\
   board_ (game w) !! Z.to_nat (position - 1) = Some EMPTY).
Proof.
  intros Hw Hplace. rewrite (place_mark_value w position Hw) in Hplace.
  destruct (accepts w position) eqn:Hacc; injection Hplace as <- <-.
  - right. apply accepts_spec in Hacc. tauto.
  - left. tauto.
Qed.

(** X3.  A cell that was taken stays taken: after [place_mark] has accepted a
    position for a player whose mark is not the blank, the same position
    is rejected, for that player and for any other, and the rejection
    changes nothing. *)
Theorem place_mark_occupied (w w' : World) (position : Z) :
  well_formed w ->
  current_player_ (game w) <> EMPTY ->
  place_mark position w = Ok true w' ->
  forall next : ascii,
    place_mark position (set_current_player next w')
      = Ok false (set_current_player next w').
Proof.
  intros Hw Hplayer Hplace next.
  destruct (place_mark_cases w w' position true Hw Hplace)
    as [[Habs _] | (_ & -> & Hrange & Hcell)]; [discriminate Habs |].
  assert (Hw' : well_formed (set_current_player next (marked (position - 1) w)))
    by (unfold well_formed; cbn; now rewrite length_insert).
  rewrite (place_mark_value _ position Hw').
  replace (accepts _ position) with false; [reflexivity |].
  symmetry. apply not_true_is_false. intros Hacc.
  apply accepts_spec in Hacc as [_ Hat]. cbn in Hat.
  rewrite list_lookup_insert_eq in Hat
    by (apply lookup_lt_is_Some; eauto).
  injection Hat as Hat. now apply Hplayer.
Qed.

Lemma place_mark_occupied_witness :
  place_mark 5 (set_current_player MARK_O (marked 4 (reset_world [])))
    = Ok false (set_current_player MARK_O (marked 4 (reset_world []))).
Proof.
  apply (place_mark_occupied (reset_world []) (marked 4 (reset_world [])) 5).
  - reflexivity.
  - discriminate.
  - reflexivity.
Defined.

Lemma marked_keeps (w : World) (index : Z) (j : nat) (c : ascii) :
  board_ (game w) !! Z.to_nat index = Some EMPTY ->
  board_ (game w) !! j = Some c -> c <> EMPTY ->
  board_ (game (marked index w)) !! j = Some c.
Proof.
  intros Hcell Hj Hc. cbn.
  rewrite list_lookup_insert_ne; [exact Hj |].
  intros <-. rewrite Hcell in Hj. injection Hj as <-. now apply Hc.
Qed.

(** X4.  [place_mark] never writes over a mark: whatever it returns, a cell
    that was not empty holds what it held, the array keeps its nine
    cells, and the player to move is the same. *)
Theorem place_mark_keeps_marks
    (w w' : World) (position : Z) (placed : bool) :
  well_formed w ->
  place_mark position w = Ok placed w' ->
  well_formed w' /\
  current_player_ (game w') = current_player_ (game w) /\
  forall (j : nat) (c : ascii),
    board_ (game w) !! j = Some c -> c <> EMPTY ->
    board_ (game w') !! j = Some c.
Proof.
  intros Hw Hplace.
  destruct (place_mark_cases w w' position placed Hw Hplace)
    as [[_ ->] | (_ & -> & _ & Hcell)].
  - split; [exact Hw |]. split; [reflexivity |]. auto.
  - split; [now apply well_formed_marked |]. split; [reflexivity |].
    intros j c. now apply marked_keeps.
Qed.

Lemma place_mark_keeps_marks_witness :
  board_ (game (marked 1 (marked 0 (reset_world [])))) !! 0%nat = Some MARK_X.
Proof.
  apply (place_mark_keeps_marks
           (marked 0 (reset_world [])) (marked 1 (marked 0 (reset_world [])))
           2 true); [reflexivity | reflexivity | reflexivity | discriminate].
Defined.

Lemma aligned_kept (b b' : list ascii) (i j k : Z) :
  (forall (n : nat) (c : ascii),
     b !! n = Some c -> c <> EMPTY -> b' !! n = Some c) ->
  aligned b i j k -> aligned b' i j k.
Proof.
  intros Hkept (mark & Hne & Hi & Hj & Hk). exists mark.
  unfold cell_of in *. split; [exact Hne |].
  destruct (in_bounds i); [| discriminate Hi].
  destruct (in_bounds j); [| discriminate Hj].
  destruct (in_bounds k); [| discriminate Hk].
  auto.
Qed.

(** X5.  A complete line is never undone: if [has_winner] is true, it is
    still true after any call of [place_mark]. *)
Theorem has_winner_stable (w w' : World) (position : Z) (placed : bool) :
  well_formed w ->
  has_winner w = Ok true w ->
  place_mark position w = Ok placed w' ->
  has_winner w' = Ok true w'.
Proof.
  intros Hw Hwin Hplace.
  assert (Hw' : well_formed w' /\
                forall (j : nat) (c : ascii),
                  board_ (game w) !! j = Some c -> c <> EMPTY ->
                  board_ (game w') !! j = Some c).
  { destruct (place_mark_cases w w' position placed Hw Hplace)
      as [[_ ->] | (_ & -> & _ & Hcell)].
    - split; [exact Hw | auto].
    - split; [now apply well_formed_marked |].
      intros j c. now apply marked_keeps. }
  destruct Hw' as [Hw' Hkept].
  apply (has_winner_iff w true Hw) in Hwin.
  apply (has_winner_iff w' true Hw').
  unfold winner in *. apply wins_aligned. apply wins_aligned in Hwin.
  destruct Hwin as [(r & Hr & Hal) | [(c & Hc & Hal) | [Hal | Hal]]].
  - left. exists r. split; [exact Hr |]. eapply aligned_kept; eauto.
  - right. left. exists c. split; [exact Hc |]. eapply aligned_kept; eauto.
  - right. right. left. eapply aligned_kept; eauto.
  - right. right. right. eapply aligned_kept; eauto.
Qed.

Lemma has_winner_stable_witness :
  has_winner (marked 8 (set_board left_column_board (reset_world [])))
    = Ok true (marked 8 (set_board left_column_board (reset_world []))).
Proof.
  apply (has_winner_stable
           (set_board left_column_board (reset_world [])) _ 9 true);
    reflexivity.
Defined.

(** ** [prompt_move] on a number *)

Lemma stoi_numeric (line : string) :
  numeric_line line -> stoi line = stoi_value (leading_integer line).
Proof. intros [Hdigit Hfits]. now rewrite stoi_value_of, Hdigit, Hfits. Qed.

Lemma rejected_accepts (w : World) (position : Z) :
  well_formed w ->
  (rejected w position <-> accepts w position = false).
Proof.
  intros Hw. rewrite <- not_true_iff_false, accepts_spec. unfold rejected.
  split.
  - intros [Hlow | [Hhigh | (cell & Hcell & Hne)]] [Hrange Hat]; try lia.
    rewrite Hat in Hcell. injection Hcell as <-. now apply Hne.
  - intros Hno.
    destruct (Z_lt_le_dec position 1) as [Hlt | Hge]; [now left |].
    destruct (Z_gt_le_dec position 9) as [Hgt | Hle]; [right; now left |].
    right. right.
    assert (Hi : in_bounds (position - 1) = true) by (apply in_bounds_spec; lia).
    destruct (in_bounds_lookup _ _ Hw Hi) as [cell Hcell].
    exists cell. split; [exact Hcell |].
    intros ->. apply Hno. split; [lia | exact Hcell].
Qed.

(** X6.  A number that is no legal move: when the line read is a number for
    [std::stoi] and [place_mark] turns its value down -- below 1, above
    9, or on a taken cell -- [prompt_move] prints the prompt and then
    "Invalid move. Try again.", returns [false], and leaves the game as
    it was; the line is consumed. *)
Theorem prompt_move_invalid_move
    (w : World) (line : string) (rest : list string) :
  well_formed w ->
  cin w = line :: rest ->
  numeric_line line ->
  rejected w (leading_integer line) ->
  prompt_move w = Ok false (said MSG_INVALID (consumed rest (prompted w))) /\
  game (said MSG_INVALID (consumed rest (prompted w))) = game w /\
  cout (said MSG_INVALID (consumed rest (prompted w)))
    = cout w +:+ prompt_text (current_player_ (game w))
      +:+ MSG_INVALID +:+ endl.
Proof.
  intros Hw Hcin Hnum Hrej.
  split; [| split; [reflexivity | cbn; now rewrite !append_assoc]].
  rewrite (prompt_move_line w line rest Hcin), (stoi_numeric line Hnum).
  rewrite place_mark_value by exact Hw.
  apply (rejected_accepts w _ Hw) in Hrej.
  change (accepts (consumed rest (prompted w)) (leading_integer line))
    with (accepts w (leading_integer line)).
  now rewrite Hrej.
Qed.

Lemma prompt_move_invalid_move_witness :
  prompt_move (reset_world ["0"])
    = Ok false (said MSG_INVALID (consumed [] (prompted (reset_world ["0"])))).
Proof.
  apply (prompt_move_invalid_move (reset_world ["0"]) "0" []).
  - reflexivity.
  - reflexivity.
  - split; reflexivity.
  - left. reflexivity.
Defined.

(** X7.  A number that is a legal move: when the line read is a number for
    [std::stoi] and its value is a position from 1 to 9 on an empty cell,
    [prompt_move] prints the prompt and nothing else, places the mark of
    the current player on that cell and returns [true]. *)
Theorem prompt_move_accepted
    (w : World) (line : string) (rest : list string) :
  well_formed w ->
  cin w = line :: rest ->
  numeric_line line ->
  ~ rejected w (leading_integer line) ->
  prompt_move w
    = Ok true (marked (leading_integer line - 1) (consumed rest (prompted w))) /\
  cout (marked (leading_integer line - 1) (consumed rest (prompted w)))
    = cout w +:+ prompt_text (current_player_ (game w)) /\
  board_ (game (marked (leading_integer line - 1) (consumed rest (prompted w))))
    = <[Z.to_nat (leading_integer line - 1) := current_player_ (game w)]>
        (board_ (game w)).
Proof.
  intros Hw Hcin Hnum Hacc.
  split; [| split; reflexivity].
  rewrite (prompt_move_line w line rest Hcin), (stoi_numeric line Hnum).
  rewrite place_mark_value by exact Hw.
  change (accepts (consumed rest (prompted w)) (leading_integer line))
    with (accepts w (leading_integer line)).
  destruct (accepts w (leading_integer line)) eqn:Hyes; [reflexivity |].
  exfalso. apply Hacc. now apply rejected_accepts.
Qed.

Lemma prompt_move_accepted_witness :
  prompt_move (reset_world ["+7 please"])
    = Ok true (marked 6 (consumed [] (prompted (reset_world ["+7 please"])))).
Proof.
  apply (prompt_move_accepted (reset_world ["+7 please"]) "+7 please" []).
  - reflexivity.
  - reflexivity.
  - split; reflexivity.
  - intros [Hlow | [Hhigh | (cell & Hcell & Hne)]].
    + discriminate Hlow.
    + discriminate Hhigh.
    + apply Hne. cbn in Hcell. now injection Hcell as <-.
Defined.

(** *** The digit shown is the digit to type *)

Lemma skip_spaces_blanks (blanks : string) (c : ascii) (tail : string) :
  only_spaces blanks = true ->
  isspace c = false ->
  skip_spaces (blanks +:+ String c tail) = String c tail.
Proof.
  intros Hblanks Hc. induction blanks as [| b blanks IH].
  - change ("" +:+ String c tail) with (String c tail).
    cbn [skip_spaces]. now rewrite Hc.
  - cbn [only_spaces] in Hblanks. apply andb_true_iff in Hblanks as [Hb Hrest].
    change (String b blanks +:+ String c tail)
      with (String b (blanks +:+ String c tail)).
    cbn [skip_spaces]. rewrite Hb. now apply IH.
Qed.

Lemma read_digits_stop (acc : Z) (s : string) :
  starts_with_digit s = false -> read_digits acc s = acc.
Proof.
  destruct s as [| c s]; [reflexivity |].
  cbn [starts_with_digit read_digits]. now intros ->.
Qed.

Lemma stoi_hint (index : nat) (blanks tail : string) :
  (index < 9)%nat ->
  only_spaces blanks = true ->
  starts_with_digit tail = false ->
  stoi (blanks +:+ hint_line index +:+ tail)
    = stoi_value (Z.of_nat index + 1).
Proof.
  intros Hindex Hblanks Htail. unfold hint_line.
  change (String (shown index EMPTY) "" +:+ tail)
    with (String (shown index EMPTY) tail).
  do 9 (destruct index as [| index];
        [unfold stoi; rewrite skip_spaces_blanks by (exact Hblanks || reflexivity);
         cbn [shown]; cbv beta iota zeta delta [starts_with_digit read_digits];
         cbn -[read_digits]; rewrite read_digits_stop by exact Htail;
         reflexivity |]).
  lia.
Qed.

(** X9.  The number [draw_board] shows in an empty cell is the move that
    takes it: when the line read is that digit -- after any white space,
    and followed by anything that does not start with a digit --
    [prompt_move] places the mark of the current player on that very
    cell and returns [true]. *)
Theorem hint_round_trip
    (w : World) (index : nat) (blanks tail : string) (rest : list string) :
  well_formed w ->
  board_ (game w) !! index = Some EMPTY ->
  only_spaces blanks = true ->
  starts_with_digit tail = false ->
  cin w = (blanks +:+ hint_line index +:+ tail) :: rest ->
  imap shown (board_ (game w)) !! index = Some (shown index EMPTY) /\
  prompt_move w
    = Ok true (marked (Z.of_nat index) (consumed rest (prompted w))) /\
  board_ (game (marked (Z.of_nat index) (consumed rest (prompted w))))
    !! index = Some (current_player_ (game w)).
Proof.
  intros Hw Hcell Hblanks Htail Hcin.
  assert (Hindex : (index < 9)%nat)
    by (rewrite <- Hw; apply lookup_lt_is_Some; eauto).
  split; [rewrite list_lookup_imap, Hcell; reflexivity |].
  split.
  - rewrite (prompt_move_line w _ rest Hcin).
    rewrite (stoi_hint index blanks tail Hindex Hblanks Htail).
    rewrite place_mark_value by exact Hw.
    replace (accepts _ (Z.of_nat index + 1)) with true.
    + now replace (Z.of_nat index + 1 - 1) with (Z.of_nat index) by lia.
    + symmetry. apply accepts_spec. split; [lia |].
      cbn [consumed prompted add_cout game].
      now replace (Z.to_nat (Z.of_nat index + 1 - 1)) with index by lia.
  - cbn. rewrite Nat2Z.id. apply list_lookup_insert_eq.
    unfold well_formed in Hw. lia.
Qed.

Lemma hint_round_trip_witness :
  prompt_move (reset_world ["  5!"])
    = Ok true (marked 4 (consumed [] (prompted (reset_world ["  5!"])))).
Proof.
  apply (hint_round_trip (reset_world ["  5!"]) 4 "  " "!" []); reflexivity.
Defined.

(** ** The grid tells the board *)

Lemma shown_injective (index : nat) (c c' : ascii) :
  (index < 9)%nat ->
  cell_value c -> cell_value c' ->
  shown index c = shown index c' -> c = c'.
Proof.
  intros Hindex Hc Hc' Heq.
  do 9 (destruct index as [| index];
        [destruct Hc as [-> | [-> | ->]]; destruct Hc' as [-> | [-> | ->]];
         first [reflexivity | discriminate Heq] |]).
  lia.
Qed.

(** X10.  Two boards whose cells are empty, X or O and that [draw_board]
    draws alike are the same board: the marks never look like the
    numbers of the empty cells. *)
Theorem rendering_injective (b b' : list ascii) :
  length b = 9%nat -> length b' = 9%nat ->
  Forall cell_value b -> Forall cell_value b' ->
  rendering b = rendering b' ->
  b = b'.
Proof.
  intros Hlen Hlen' Hcells Hcells' Heq.
  destruct (board_nine b Hlen)
    as (c0 & c1 & c2 & c3 & c4 & c5 & c6 & c7 & c8 & ->).
  destruct (board_nine b' Hlen')
    as (d0 & d1 & d2 & d3 & d4 & d5 & d6 & d7 & d8 & ->).
  repeat match goal with
         | H : Forall cell_value (_ :: _) |- _ =>
             apply Forall_cons_1 in H;
             let Hc := fresh "Hcell" in destruct H as [Hc H]
         end.
  cbv -[shown] in Heq.
  repeat match type of Heq with
         | String ?a _ = String ?a _ => injection Heq as Heq
         | String (shown _ _) _ = String (shown _ _) _ =>
             let Hs := fresh "Hshown" in injection Heq as Hs Heq
         end.
  repeat match goal with
         | Hs : shown ?i ?c = shown ?i ?d |- _ =>
             apply (shown_injective i c d) in Hs;
             [subst d | lia | assumption | assumption]
         end.
  reflexivity.
Qed.

Lemma rendering_injective_witness : left_column_board = left_column_board.
Proof.
  apply (rendering_injective left_column_board left_column_board);
    try reflexivity;
    repeat (apply Forall_cons_2; [unfold cell_value; tauto |]);
    apply Forall_nil_2.
Defined.

(** ** What a session keeps *)

Lemma movers_app (l1 l2 : list event) :
  movers (l1 ++ l2) = movers l1 ++ movers l2.
Proof.
  induction l1 as [| [player index | | | | |] l1 IH]; cbn [movers app];
    [reflexivity | now rewrite IH | exact IH ..].
Qed.

Lemma mark_indices_app (l1 l2 : list event) :
  mark_indices (l1 ++ l2) = mark_indices l1 ++ mark_indices l2.
Proof.
  induction l1 as [| [player index | | | | |] l1 IH];
    cbn [mark_indices app];
    [reflexivity | now rewrite IH | exact IH ..].
Qed.

Lemma mark_indices_In (l : list event) (index : Z) :
  In index (mark_indices l) -> exists player, In (EvMark player index) l.
Proof.
  induction l as [| [player i | | | | |] l IH]; cbn [mark_indices];
    try (intros H; destruct (IH H) as [q Hq]; exists q; now right).
  - intros [].
  - intros [<- | H]; [exists player; now left |].
    destruct (IH H) as [q Hq]. exists q. now right.
Qed.

(** The first half of a turn either leaves the game and the log alone
    or places one mark. *)
Lemma turn_input_effect (w w' : World) (r : result bool) :
  well_formed w ->
  turn_input w = r ->
  match r with
  | Ok false w' | Exited _ w' => game w' = game w /\ log w' = log w
  | Ok true w' =>
      exists choice rest,
        accepts w choice = true /\
        w' = marked (choice - 1) (consumed rest (prompted (drawn w)))
  | Undefined | OutOfFuel => False
  end.
Proof.
  intros Hw <-. rewrite (turn_input_value w Hw).
  destruct (cin w) as [| line rest]; [split; reflexivity |].
  cbv zeta. destruct (stoi line) as [choice | |]; try (split; reflexivity).
  destruct (accepts w choice) eqn:Hacc; [eauto | split; reflexivity].
Qed.

(** The second half of a turn leaves the board alone and adds no mark to
    the log; it swaps the player exactly when it finds no line and an
    empty cell. *)
Lemma turn_checks_effect (w w' : World) (again : bool) :
  well_formed w ->
  turn_checks w = Ok again w' ->
  board_ (game w') = board_ (game w) /\
  (exists notes, log w' = log w ++ notes /\
                 movers notes = [] /\ mark_indices notes = []) /\
  if again
  then winner (board_ (game w)) = false /\ full (board_ (game w)) = false
  else current_player_ (game w') = current_player_ (game w).
Proof.
  intros Hw Hchk. rewrite (turn_checks_value w Hw) in Hchk.
  unfold after_move in Hchk.
  destruct (winner (board_ (game w)));
    [| destruct (full (board_ (game w)))];
    injection Hchk as <- <-; (split; [reflexivity |]);
    (split; [| tauto]).
  - exists [EvWinCheck true; EvAnnounceWin (current_player_ (game w))].
    cbn. now rewrite <- !app_assoc.
  - exists [EvWinCheck false; EvDrawCheck true; EvAnnounceDraw].
    cbn. now rewrite <- !app_assoc.
  - exists [EvWinCheck false; EvDrawCheck false; EvSwap].
    cbn. now rewrite <- !app_assoc.
Qed.

Lemma facts_reset (input : list string) :
  session_facts AwaitingMove (said MSG_WELCOME (reset_world input)).
Proof.
  split; [reflexivity |]. split; [apply NoDup_nil_2 |].
  split; [| reflexivity].
  intros j c Hj Hc.
  change (replicate 9 EMPTY !! j = Some c) in Hj.
  apply lookup_replicate in Hj as [-> _]. now contradiction Hc.
Qed.

Lemma facts_marked (w : World) (choice : Z) (rest : list string) :
  phase_invariant AwaitingMove w ->
  session_facts AwaitingMove w ->
  accepts w choice = true ->
  session_facts MoveAccepted
    (marked (choice - 1) (consumed rest (prompted (drawn w)))).
Proof.
  intros (Hw & _ & Hon & Hturn & Hwin) (Hcount & Hdup & Hlogged & _) Hacc.
  apply accepts_spec in Hacc as [Hrange Hcell].
  assert (Hplayer : current_player_ (game w) = MARK_X \/
                    current_player_ (game w) = MARK_O)
    by (destruct Hturn as [[H _] | [H _]]; tauto).
  assert (Hne : current_player_ (game w) <> EMPTY)
    by (destruct Hplayer as [-> | ->]; discriminate).
  unfold session_facts.
  cbn [marked consumed prompted drawn add_cout add_log set_board game board_
       current_player_ log].
  split; [| split; [| split]].
  - rewrite movers_app, length_app, Hcount. cbn [movers length].
    destruct Hplayer as [-> | ->].
    + rewrite (count_insert_new MARK_X EMPTY _ _ Hcell) by discriminate.
      rewrite (count_insert_other MARK_X EMPTY MARK_O _ _ Hcell)
        by discriminate.
      lia.
    + rewrite (count_insert_new MARK_O EMPTY _ _ Hcell) by discriminate.
      rewrite (count_insert_other MARK_O EMPTY MARK_X _ _ Hcell)
        by discriminate.
      lia.
  - rewrite mark_indices_app. cbn [mark_indices].
    apply NoDup_app. split; [exact Hdup |].
    split; [| apply NoDup_singleton].
    intros index Hin Hnew. apply list_elem_of_In in Hin.
    apply list_elem_of_singleton in Hnew. subst index.
    destruct (mark_indices_In _ _ Hin) as [q Hq].
    rewrite Forall_forall in Hon.
    specialize (Hon _ (proj2 (list_elem_of_In _ _) Hq)).
    destruct Hon as (_ & Hq_ne & Hat).
    rewrite Hat in Hcell. injection Hcell as ->. now apply Hq_ne.
  - intros j c Hj Hc. apply in_or_app.
    destruct (decide (j = Z.to_nat (choice - 1))) as [-> | Hother].
    + right. left.
      rewrite list_lookup_insert_eq in Hj
        by (apply lookup_lt_is_Some; eauto).
      injection Hj as <-. f_equal. lia.
    + left. rewrite list_lookup_insert_ne in Hj by congruence.
      now apply Hlogged.
  - exists (board_ (game w)), (Z.to_nat (choice - 1)). auto.
Qed.

Lemma facts_same_marks (ph ph' : phase) (w w' : World) (notes : list event) :
  session_facts ph w ->
  board_ (game w') = board_ (game w) ->
  log w' = log w ++ notes ->
  movers notes = [] -> mark_indices notes = [] ->
  match ph' with
  | AwaitingMove | Terminated => full (board_ (game w')) = false
  | MoveAccepted | Won | Drawn => just_marked (game w')
  end ->
  session_facts ph' w'.
Proof.
  intros (Hcount & Hdup & Hlogged & _) Hboard Hlog Hmovers Hindices Hph.
  unfold session_facts.
  rewrite Hboard, Hlog, movers_app, mark_indices_app, Hmovers, Hindices,
    !app_nil_r.
  split; [exact Hcount |]. split; [exact Hdup |].
  split; [| rewrite <- Hboard; exact Hph].
  intros j c Hj Hc. apply in_or_app. left. now apply Hlogged.
Qed.

Lemma just_marked_same (g g' : TicTacToe) :
  just_marked g ->
  board_ g' = board_ g -> current_player_ g' = current_player_ g ->
  just_marked g'.
Proof.
  intros (before & index & H) Hb Hp. exists before, index.
  now rewrite Hb, Hp.
Qed.

Lemma reachable_facts (ph : phase) (w : World) :
  reachable ph w -> session_facts ph w.
Proof.
  induction 1 as [input w Hrun
                 | w w' Hreach IH Hturn | w w' code Hreach IH Hturn
                 | w w' Hreach IH Hturn
                 | w w' Hreach IH Hturn | w w' Hreach IH Hwin Hturn
                 | w w' Hreach IH Hwin Hturn];
    try pose proof (reachable_invariant _ _ Hreach) as Hinv;
    try pose proof Hinv as (Hw & _).
  - rewrite run_prologue_value in Hrun. injection Hrun as <-.
    apply facts_reset.
  - destruct (turn_input_effect w w' _ Hw Hturn) as [Hgame Hlog].
    apply (facts_same_marks AwaitingMove AwaitingMove w w' []); auto.
    + now rewrite Hgame.
    + now rewrite app_nil_r.
    + rewrite Hgame. now destruct IH as (_ & _ & _ & Hfull).
  - destruct (turn_input_effect w w' _ Hw Hturn) as [Hgame Hlog].
    apply (facts_same_marks AwaitingMove Terminated w w' []); auto.
    + now rewrite Hgame.
    + now rewrite app_nil_r.
    + rewrite Hgame. now destruct IH as (_ & _ & _ & Hfull).
  - destruct (turn_input_effect w w' _ Hw Hturn)
      as (choice & rest & Hacc & ->).
    now apply facts_marked.
  - destruct (turn_checks_effect w w' true Hw Hturn)
      as (Hboard & (notes & Hlog & Hm & Hi) & _ & Hfull).
    apply (facts_same_marks MoveAccepted AwaitingMove w w' notes); auto.
    now rewrite Hboard.
  - destruct (turn_checks_effect w w' false Hw Hturn)
      as (Hboard & (notes & Hlog & Hm & Hi) & Hplayer).
    apply (facts_same_marks MoveAccepted Won w w' notes); auto.
    destruct IH as (_ & _ & _ & Hjust). eapply just_marked_same; eauto.
  - destruct (turn_checks_effect w w' false Hw Hturn)
      as (Hboard & (notes & Hlog & Hm & Hi) & Hplayer).
    apply (facts_same_marks MoveAccepted Drawn w w' notes); auto.
    destruct IH as (_ & _ & _ & Hjust). eapply just_marked_same; eauto.
Qed.

(** *** The winner holds a line *)

Lemma cell_of_insert_ne (b : list ascii) (index : nat) (p : ascii) (l : Z) :
  Z.to_nat l <> index ->
  cell_of (<[index := p]> b) l = cell_of b l.
Proof.
  intros Hne. unfold cell_of. destruct (in_bounds l); [| reflexivity].
  now apply list_lookup_insert_ne.
Qed.

Lemma cell_of_insert_eq (b : list ascii) (index : nat) (p m : ascii) (l : Z) :
  (index < length b)%nat ->
  Z.to_nat l = index ->
  cell_of (<[index := p]> b) l = Some m -> m = p.
Proof.
  intros Hlt <- Hcell. unfold cell_of in Hcell.
  destruct (in_bounds l); [| discriminate Hcell].
  rewrite list_lookup_insert_eq in Hcell by exact Hlt. now injection Hcell.
Qed.

(** A line that a mark completes is a line of that mark. *)
Lemma new_line_owned (before : list ascii) (index : nat) (p : ascii) :
  winner before = false ->
  before !! index = Some EMPTY ->
  winner (<[index := p]> before) = true ->
  owns_line (<[index := p]> before) p.
Proof.
  intros Hnone Hcell Hwin.
  assert (Hlt : (index < length before)%nat)
    by (apply lookup_lt_is_Some; eauto).
  unfold winner in Hwin. apply existsb_exists in Hwin
    as ([[l0 l1] l2] & Hin & Hline).
  apply line_won_aligned in Hline as (m & Hm & H0 & H1 & H2).
  assert (Hmp : m = p).
  { destruct (decide (Z.to_nat l0 = index)) as [He0 | Hn0];
      [exact (cell_of_insert_eq _ _ _ _ _ Hlt He0 H0) |].
    destruct (decide (Z.to_nat l1 = index)) as [He1 | Hn1];
      [exact (cell_of_insert_eq _ _ _ _ _ Hlt He1 H1) |].
    destruct (decide (Z.to_nat l2 = index)) as [He2 | Hn2];
      [exact (cell_of_insert_eq _ _ _ _ _ Hlt He2 H2) |].
    exfalso.
    rewrite cell_of_insert_ne in H0, H1, H2 by assumption.
    assert (Hold : winner before = true).
    { unfold winner. apply existsb_exists. exists (l0, l1, l2).
      split; [exact Hin |]. apply line_won_aligned. exists m. auto. }
    rewrite Hnone in Hold. discriminate Hold. }
  subst m. exists l0, l1, l2. auto.
Qed.

(** X12.  The player a session declares the winner holds a complete line: in
    the state Won, one of the eight lines has the mark of the current
    player -- the one the announcement names -- in its three cells. *)
Theorem winner_owns_line (w : World) :
  reachable Won w ->
  owns_line (board_ (game w)) (current_player_ (game w)) /\
  (current_player_ (game w) = MARK_X \/ current_player_ (game w) = MARK_O).
Proof.
  intros Hreach.
  pose proof (reachable_invariant _ _ Hreach)
    as (_ & _ & _ & Hmoved & Hwin).
  pose proof (reachable_facts _ _ Hreach)
    as (_ & _ & _ & before & index & Hnone & Hcell & _ & Hboard).
  split.
  - rewrite Hboard in Hwin |- *. now apply new_line_owned.
  - destruct Hmoved as [[Hp _] | [Hp _]]; tauto.
Qed.

(** *** The loop asks only when a move is possible *)

Lemma full_false_empty_cell (b : list ascii) :
  full b = false -> exists index, b !! index = Some EMPTY.
Proof.
  unfold full. induction b as [| cell rest IH]; [discriminate |].
  cbn [forallb]. unfold non_empty at 1.
  destruct (Ascii.eqb cell EMPTY) eqn:Hcell.
  - intros _. exists 0%nat. apply Ascii.eqb_eq in Hcell. now subst cell.
  - intros Hrest. destruct (IH Hrest) as [index Hindex].
    now exists (S index).
Qed.

(** X11.  Whenever the loop is at its head, about to draw the board and ask
    for a move, the game is still open: no line is complete, a cell is
    empty, and [place_mark] accepts some position. *)
Theorem prompt_only_when_open (w : World) :
  reachable AwaitingMove w ->
  has_winner w = Ok false w /\
  is_draw w = Ok false w /\
  exists position,
    1 <= position <= 9 /\
    place_mark position w = Ok true (marked (position - 1) w).
Proof.
  intros Hreach.
  pose proof (reachable_invariant _ _ Hreach) as (Hw & _ & _ & _ & Hwin).
  pose proof (reachable_facts _ _ Hreach) as (_ & _ & _ & Hfull).
  split; [now apply has_winner_iff |]. split; [now apply is_draw_iff |].
  destruct (full_false_empty_cell _ Hfull) as [index Hindex].
  assert (Hlt : (index < 9)%nat)
    by (rewrite <- Hw; apply lookup_lt_is_Some; eauto).
  exists (Z.of_nat index + 1). split; [lia |].
  rewrite place_mark_value by exact Hw.
  replace (accepts w (Z.of_nat index + 1)) with true; [reflexivity |].
  symmetry. apply accepts_spec. split; [lia |].
  now replace (Z.to_nat (Z.of_nat index + 1 - 1)) with index by lia.
Qed.

Lemma prompt_only_when_open_witness :
  has_winner (said MSG_WELCOME (reset_world ["1"]))
    = Ok false (said MSG_WELCOME (reset_world ["1"])).
Proof.
  apply (prompt_only_when_open (said MSG_WELCOME (reset_world ["1"]))).
  apply reachable_start.
Defined.

(** *** Marks and moves *)

Lemma count_marks_le (b : list ascii) :
  (count MARK_X b + count MARK_O b <= length b)%nat.
Proof.
  induction b as [| cell rest IH]; [reflexivity |].
  cbn [count length].
  destruct (Ascii.eqb cell MARK_X) eqn:Hx; destruct (Ascii.eqb cell MARK_O) eqn:Ho;
    try lia.
  apply Ascii.eqb_eq in Hx, Ho. subst cell. discriminate Ho.
Qed.

Lemma count_marks_full (b : list ascii) :
  Forall cell_value b -> full b = true ->
  (count MARK_X b + count MARK_O b = length b)%nat.
Proof.
  unfold full. induction 1 as [| cell rest Hcell _ IH]; [reflexivity |].
  cbn [forallb count length]. intros Hfull.
  apply andb_true_iff in Hfull as [Hne Hrest]. specialize (IH Hrest).
  destruct Hcell as [-> | [-> | ->]];
    [discriminate Hne | cbn; lia | cbn; lia].
Qed.

(** X14.  A session makes at most nine moves, each on a cell of its own, and
    the board holds exactly the marks of these moves: the moves made are
    as many as the X and O on the board, no cell is marked twice, and a
    cell is not empty exactly when the log has its mark. *)
Theorem moves_are_the_marks (ph : phase) (w : World) :
  reachable ph w ->
  length (movers (log w))
    = (count MARK_X (board_ (game w)) + count MARK_O (board_ (game w)))%nat /\
  (length (movers (log w)) <= 9)%nat /\
  NoDup (mark_indices (log w)) /\
  forall (j : nat) (c : ascii),
    board_ (game w) !! j = Some c ->
    (c <> EMPTY <-> In (EvMark c (Z.of_nat j)) (log w)).
Proof.
  intros Hreach.
  pose proof (reachable_invariant _ _ Hreach) as (Hw & _ & Hon & _).
  pose proof (reachable_facts _ _ Hreach) as (Hcount & Hdup & Hlogged & _).
  split; [exact Hcount |].
  split; [rewrite Hcount, <- Hw; apply count_marks_le |].
  split; [exact Hdup |].
  intros j c Hj. split; [now apply Hlogged |].
  intros Hin. rewrite Forall_forall in Hon.
  specialize (Hon _ (proj2 (list_elem_of_In _ _) Hin)).
  now destruct Hon as (_ & Hne & _).
Qed.

(** X15.  A draw is declared on a board of five X and four O, after the ninth
    move, which is a move of X. *)
Theorem draw_shape (w : World) :
  reachable Drawn w ->
  count MARK_X (board_ (game w)) = 5%nat /\
  count MARK_O (board_ (game w)) = 4%nat /\
  current_player_ (game w) = MARK_X /\
  length (movers (log w)) = 9%nat.
Proof.
  intros Hreach.
  pose proof (reachable_invariant _ _ Hreach)
    as (Hw & Hcells & _ & Hmoved & _ & Hfull).
  pose proof (reachable_facts _ _ Hreach) as (Hcount & _).
  pose proof (count_marks_full _ Hcells Hfull) as Hall.
  unfold well_formed in Hw. rewrite Hw in Hall. rewrite Hcount.
  destruct Hmoved as [[Hp Hc] | [Hp Hc]]; repeat split; try assumption; lia.
Qed.

(** X16.  A session that the end of the input cuts short had a cell left to
    play: its board is not full, and it made fewer than nine moves. *)
Theorem closed_session_open (w : World) :
  reachable Terminated w ->
  is_draw w = Ok false w /\
  has_winner w = Ok false w /\
  (length (movers (log w)) < 9)%nat.
Proof.
  intros Hreach.
  pose proof (reachable_invariant _ _ Hreach)
    as (Hw & _ & _ & _ & Hwin).
  pose proof (reachable_facts _ _ Hreach) as (Hcount & _ & _ & Hfull).
  split; [now apply is_draw_iff |]. split; [now apply has_winner_iff |].
  rewrite Hcount.
  destruct (full_false_empty_cell _ Hfull) as [index Hindex].
  assert (Hsplit :
            forall b : list ascii, forall i : nat,
              b !! i = Some EMPTY ->
              (count MARK_X b + count MARK_O b < length b)%nat).
  { induction b as [| cell rest IH]; intros i Hi; [discriminate Hi |].
    destruct i as [| i].
    - cbn in Hi. injection Hi as ->. cbn [count length].
      pose proof (count_marks_le rest). cbn. lia.
    - cbn in Hi. specialize (IH i Hi). cbn [count length].
      destruct (Ascii.eqb cell MARK_X) eqn:Hx;
        destruct (Ascii.eqb cell MARK_O) eqn:Ho; try lia.
      apply Ascii.eqb_eq in Hx, Ho. subst cell. discriminate Ho. }
  rewrite <- Hw. eapply Hsplit; eauto.
Qed.

(** *** Sessions at their end, played out *)

Lemma left_column_won :
  exists w : World,
    reachable Won w /\
    board_ (game w) = left_column_board /\
    current_player_ (game w) = MARK_X.
Proof.
  destruct left_column_reached as (w & Hreach & Hboard & Hplayer).
  assert (Hw : well_formed w)
    by exact (eq_trans (f_equal length Hboard) eq_refl).
  pose proof (turn_checks_value w Hw) as Hchk. unfold after_move in Hchk.
  rewrite Hboard in Hchk. change (winner left_column_board) with true in Hchk.
  eexists. split; [| split].
  - eapply reach_won; [exact Hreach | | exact Hchk].
    apply has_winner_iff; [exact Hw |]. now rewrite Hboard.
  - exact Hboard.
  - exact Hplayer.
Defined.

Lemma drawn_game_reached :
  exists w : World,
    reachable Drawn w /\ board_ (game w) = drawn_board.
Proof.
  pose proof (reachable_start drawn_game_moves) as H.
  play turn_input reach_accepted. play turn_checks reach_swapped.
  play turn_input reach_accepted. play turn_checks reach_swapped.
  play turn_input reach_accepted. play turn_checks reach_swapped.
  play turn_input reach_accepted. play turn_checks reach_swapped.
  play turn_input reach_accepted. play turn_checks reach_swapped.
  play turn_input reach_accepted. play turn_checks reach_swapped.
  play turn_input reach_accepted. play turn_checks reach_swapped.
  play turn_input reach_accepted. play turn_checks reach_swapped.
  play turn_input reach_accepted.
  match goal with
  | H : reachable MoveAccepted ?w |- _ =>
      let r := eval vm_compute in (turn_checks w) in
      match r with
      | Ok false ?w' =>
          exists w'; split;
          [exact (reach_drawn w w' H
                    (@eq_refl (result bool) (Ok false w)
                     <: has_winner w = Ok false w)
                    (@eq_refl (result bool) (Ok false w')
                     <: turn_checks w = Ok false w'))
          | reflexivity]
      end
  end.
Defined.

Lemma closed_at_once :
  reachable Terminated
    (said MSG_CLOSED (prompted (drawn (said MSG_WELCOME (reset_world []))))).
Proof.
  apply (reach_closed (said MSG_WELCOME (reset_world [])) _ 0).
  - apply reachable_start.
  - reflexivity.
Defined.

Lemma winner_owns_line_witness :
  exists w : World,
    board_ (game w) = left_column_board /\
    owns_line (board_ (game w)) (current_player_ (game w)).
Proof.
  destruct left_column_won as (w & Hreach & Hboard & _).
  exists w. split; [exact Hboard |].
  apply (winner_owns_line w Hreach).
Defined.

Lemma moves_are_the_marks_witness :
  exists w : World,
    board_ (game w) = left_column_board /\
    NoDup (mark_indices (log w)).
Proof.
  destruct left_column_won as (w & Hreach & Hboard & _).
  exists w. split; [exact Hboard |].
  apply (moves_are_the_marks Won w Hreach).
Defined.

Lemma draw_shape_witness :
  exists w : World,
    board_ (game w) = drawn_board /\
    count MARK_X (board_ (game w)) = 5%nat.
Proof.
  destruct drawn_game_reached as (w & Hreach & Hboard).
  exists w. split; [exact Hboard |].
  apply (draw_shape w Hreach).
Defined.

Lemma closed_session_open_witness :
  is_draw (said MSG_CLOSED (prompted (drawn (said MSG_WELCOME (reset_world [])))))
    = Ok false
        (said MSG_CLOSED (prompted (drawn (said MSG_WELCOME (reset_world []))))).
Proof.
  apply (closed_session_open _ closed_at_once).
Defined.

(** *** The input is read one line a turn *)

Lemma run_loop_consumes (fuel : nat) (w : World) :
  well_formed w ->
  (length (cin w) < fuel)%nat ->
  exists (wf : World) (used : list string),
    final_world (run_loop fuel w) = Some wf /\
    cin w = used ++ cin wf /\
    (length (movers (log wf))
     <= length (movers (log w)) + length used)%nat.
Proof.
  revert w. induction fuel as [| fuel IH]; intros w Hw Hlen; [lia |].
  rewrite run_loop_unfold, (iteration_step w Hw). unfold step.
  destruct (cin w) as [| line rest] eqn:Hcin.
  - eexists. exists []. split; [reflexivity |].
    cbn. rewrite Hcin. split; [reflexivity | lia].
  - cbn [length] in Hlen.
    assert (Hnext :
              forall w1 : World,
                well_formed w1 -> cin w1 = rest ->
                (length (movers (log w1))
                 <= S (length (movers (log w))))%nat ->
                exists wf used,
                  final_world (run_loop fuel w1) = Some wf /\
                  line :: rest = used ++ cin wf /\
                  (length (movers (log wf))
                   <= length (movers (log w)) + length used)%nat).
    { intros w1 Hw1 Hcin1 Hlog1.
      destruct (IH w1 Hw1) as (wf & used & Hfinal & Hused & Hmoves);
        [rewrite Hcin1; lia |].
      exists wf, (line :: used). split; [exact Hfinal |].
      rewrite <- Hcin1, Hused. split; [reflexivity |]. cbn [length]. lia. }
    cbv zeta.
    destruct (stoi line) as [choice | |];
      [destruct (accepts w choice) |..];
      try (apply Hnext; [exact Hw | reflexivity | cbn; lia]).
    set (w1 := marked (choice - 1) (consumed rest (prompted (drawn w)))).
    assert (Hmovers : movers (log w1) = movers (log w) ++ [current_player_ (game w)])
      by (subst w1; cbn; now rewrite movers_app).
    unfold after_move.
    destruct (winner (board_ (game w1)));
      [| destruct (full (board_ (game w1)))].
    + eexists. exists [line]. split; [reflexivity |].
      split; [reflexivity |].
      cbn [log add_log said add_cout drawn].
      rewrite !movers_app, Hmovers, !length_app. cbn. lia.
    + eexists. exists [line]. split; [reflexivity |].
      split; [reflexivity |].
      cbn [log add_log said add_cout drawn].
      rewrite !movers_app, Hmovers, !length_app. cbn. lia.
    + apply Hnext.
      * now apply well_formed_marked.
      * reflexivity.
      * cbn [swapped log add_log set_current_player].
        rewrite !movers_app, Hmovers, !length_app. cbn. lia.
Qed.

Lemma well_formed_game (w w' : World) :
  well_formed w -> game w' = game w -> well_formed w'.
Proof. unfold well_formed. now intros H ->. Qed.

(** A turn that returns has read one line, the first of those left. *)
Lemma iteration_reads_one (w w' : World) (again : bool) :
  well_formed w ->
  iteration w = Ok again w' ->
  well_formed w' /\ exists line, cin w = line :: cin w'.
Proof.
  intros Hw Hit. rewrite (iteration_step w Hw) in Hit. unfold step in Hit.
  destruct (cin w) as [| line rest]; [discriminate Hit |].
  cbv zeta in Hit.
  assert (Hmarked : forall choice,
            well_formed (marked (choice - 1) (consumed rest (prompted (drawn w)))))
    by (intros choice; now apply well_formed_marked).
  destruct (stoi line) as [choice | |];
    [destruct (accepts w choice);
     [unfold after_move in Hit;
      destruct (winner _); [| destruct (full _)] |] |..];
    injection Hit as <- <-;
    (split; [first [exact Hw | apply (Hmarked choice)] | now exists line]).
Qed.

(** A turn that finds no line exits, and a turn that exits found none. *)
Lemma iteration_exits (w w' : World) (code : Z) :
  well_formed w ->
  iteration w = Exited code w' ->
  cin w = [] /\ cin w' = [] /\ code = 0 /\ game w' = game w.
Proof.
  intros Hw Hit. rewrite (iteration_step w Hw) in Hit. unfold step in Hit.
  destruct (cin w) as [| line rest] eqn:Hcin.
  - injection Hit as <- <-. cbn. now rewrite Hcin.
  - cbv zeta in Hit.
    destruct (stoi line) as [choice | |];
      [destruct (accepts w choice);
       [unfold after_move in Hit;
        destruct (winner _); [| destruct (full _)] |] |..];
      discriminate Hit.
Qed.

Lemma head_after_reads (turns : nat) (w h : World) :
  well_formed w ->
  head_after turns w = Some h ->
  well_formed h /\ cin h = drop turns (cin w) /\
  (turns <= length (cin w))%nat.
Proof.
  revert w. induction turns as [| turns IH]; intros w Hw Hhead.
  - injection Hhead as <-. split; [exact Hw |].
    split; [reflexivity | lia].
  - cbn [head_after] in Hhead.
    destruct (iteration w) as [[|] w1 | | |] eqn:Hit; try discriminate Hhead.
    destruct (iteration_reads_one w w1 true Hw Hit) as (Hw1 & line & Hcin).
    destruct (IH w1 Hw1 Hhead) as (Hh & Hdrop & Hle).
    rewrite Hcin. cbn [drop length]. split; [exact Hh |].
    split; [exact Hdrop | lia].
Qed.

(** The loop, as the turns it makes: some number of turns that go
    round, and a last one that leaves the loop. *)
Lemma run_loop_turns (fuel : nat) (w : World) :
  well_formed w ->
  (length (cin w) < fuel)%nat ->
  exists (turns : nat) (h : World),
    head_after turns w = Some h /\
    run_loop fuel w =
      match iteration h with
      | Ok _ wf => Ok tt wf
      | Exited code wf => Exited code wf
      | Undefined => Undefined
      | OutOfFuel => OutOfFuel
      end /\
    match iteration h with
    | Ok again _ => again = false
    | Exited _ _ => True
    | Undefined | OutOfFuel => False
    end.
Proof.
  revert w. induction fuel as [| fuel IH]; intros w Hw Hlen; [lia |].
  destruct (iteration w) as [[|] w1 | code w1 | |] eqn:Hit.
  - destruct (iteration_reads_one w w1 true Hw Hit) as (Hw1 & line & Hcin).
    destruct (IH w1 Hw1) as (turns & h & Hhead & Hrun & Hlast);
      [rewrite Hcin in Hlen; cbn [length] in Hlen; lia |].
    exists (S turns), h. cbn [head_after]. rewrite Hit.
    split; [exact Hhead |].
    split; [rewrite run_loop_unfold, Hit; exact Hrun | exact Hlast].
  - exists 0%nat, w. split; [reflexivity |].
    rewrite run_loop_unfold, Hit. split; reflexivity.
  - exists 0%nat, w. split; [reflexivity |].
    rewrite run_loop_unfold, Hit. split; [reflexivity | exact I].
  - rewrite (iteration_step w Hw) in Hit. unfold step in Hit.
    destruct (cin w) as [| line rest]; [discriminate Hit |].
    cbv zeta in Hit.
    destruct (stoi line) as [choice | |];
      [destruct (accepts w choice);
       [unfold after_move in Hit;
        destruct (winner _); [| destruct (full _)] |] |..];
      discriminate Hit.
  - rewrite (iteration_step w Hw) in Hit. unfold step in Hit.
    destruct (cin w) as [| line rest]; [discriminate Hit |].
    cbv zeta in Hit.
    destruct (stoi line) as [choice | |];
      [destruct (accepts w choice);
       [unfold after_move in Hit;
        destruct (winner _); [| destruct (full _)] |] |..];
      discriminate Hit.
Qed.

(** X17.  A session reads its input in order, one line a turn, and
    stops reading when the game is over.  At the head of the loop after
    [turns] turns exactly the first [turns] lines are gone.  The session
    ends in the turn that follows some number of full turns: either that
    turn finds no line, all the input is read and the program exits; or
    that turn reads one line more, announces the win or the draw and
    [run] returns at once, so that every line after this one is left
    unread.  The moves made are no more than the lines read. *)
Theorem input_read_in_order (input : list string) :
  (forall (turns : nat) (h : World),
     head_after turns (said MSG_WELCOME (reset_world input)) = Some h ->
     cin h = drop turns input /\ (turns <= length input)%nat) /\
  exists (wf : World) (ph : phase) (turns : nat) (h : World),
    run (enough_fuel input) (initial_world input) = finish tt ph wf /\
    terminal ph /\
    (has_winner wf = Ok true wf <-> ph = Won) /\
    head_after turns (said MSG_WELCOME (reset_world input)) = Some h /\
    (ph = Terminated ->
     iteration h = Exited 0 wf /\ turns = length input /\ cin wf = []) /\
    (ph = Won \/ ph = Drawn ->
     iteration h = Ok false wf /\ (turns < length input)%nat /\
     cin wf = drop (S turns) input) /\
    (length (movers (log wf)) + length (cin wf) <= length input)%nat.
Proof.
  assert (Hstart : well_formed (said MSG_WELCOME (reset_world input)))
    by reflexivity.
  split.
  - intros turns h Hhead.
    destruct (head_after_reads turns _ h Hstart Hhead) as (_ & Hdrop & Hle).
    split; [exact Hdrop | exact Hle].
  - destruct (run_sound input) as (wf & ph & Hrun & _ & Hterm & Hreach & _).
    destruct (run_loop_turns (enough_fuel input) _ Hstart)
      as (turns & h & Hhead & Hloop & Hlast);
      [unfold enough_fuel; cbn; lia |].
    destruct (head_after_reads turns _ h Hstart Hhead) as (Hh & Hdrop & Hle).
    change (cin (said MSG_WELCOME (reset_world input))) with input in *.
    rewrite <- run_value, Hrun in Hloop.
    destruct (run_loop_consumes (enough_fuel input) _ Hstart)
      as (wf' & used & Hfinal & Hused & Hmoves);
      [unfold enough_fuel; cbn; lia |].
    rewrite <- run_value, Hrun in Hfinal.
    assert (Hsame : wf' = wf) by (destruct ph; now injection Hfinal).
    subst wf'. cbn in Hused, Hmoves.
    exists wf, ph, turns, h.
    split; [exact Hrun |]. split; [exact Hterm |].
    split; [apply terminal_winner;
            [exact Hterm | now apply reachable_invariant] |].
    split; [exact Hhead |].
    split; [| split].
    + intros ->. cbn [finish] in Hloop.
      destruct (iteration h) as [again w1 | code w1 | |] eqn:Hit;
        try discriminate Hloop; try contradiction.
      injection Hloop as -> ->.
      destruct (iteration_exits h w1 code Hh Hit) as (Hnone & Hleft & _ & _).
      split; [reflexivity |]. split; [| exact Hleft].
      rewrite Hdrop in Hnone. apply (f_equal length) in Hnone.
      rewrite length_drop in Hnone. cbn in Hnone. lia.
    + intros Hph.
      assert (Hok : finish tt ph wf = Ok tt wf)
        by (destruct Hph as [-> | ->]; reflexivity).
      rewrite Hok in Hloop.
      destruct (iteration h) as [again w1 | code w1 | |] eqn:Hit;
        try discriminate Hloop; try contradiction.
      injection Hloop as ->. subst again.
      destruct (iteration_reads_one h w1 false Hh Hit) as (_ & line & Hcin).
      split; [reflexivity |].
      rewrite Hdrop in Hcin.
      assert (Hlt : (turns < length input)%nat).
      { apply (f_equal length) in Hcin. rewrite length_drop in Hcin.
        cbn [length] in Hcin. lia. }
      split; [exact Hlt |].
      replace (S turns) with (turns + 1)%nat by lia.
      rewrite <- drop_drop, Hcin. reflexivity.
    + rewrite Hused, length_app. lia.
Qed.

Lemma input_read_in_order_witness :
  exists h : World,
    head_after 2 (said MSG_WELCOME (reset_world ["1"; "x"; "2"; "5"]))
      = Some h /\
    cin h = drop 2 ["1"; "x"; "2"; "5"].
Proof.
  assert (Hhead : exists h : World,
             head_after 2 (said MSG_WELCOME (reset_world ["1"; "x"; "2"; "5"]))
               = Some h)
    by (eexists; vm_compute; reflexivity).
  destruct Hhead as [h Hhead]. exists h. split; [exact Hhead |].
  exact (proj1 (proj1 (input_read_in_order ["1"; "x"; "2"; "5"]) 2%nat h Hhead)).
Defined.

(** The first scenario with two lines more: the win on the fifth line
    leaves them unread. *)
Example lines_after_the_win :
  exists w,
    run (enough_fuel (left_column_moves ++ ["9"; "3"]))
      (initial_world (left_column_moves ++ ["9"; "3"])) = Ok tt w /\
    cin w = ["9"; "3"].
Proof. eexists. split; [vm_compute; reflexivity | reflexivity]. Qed.

(** *** One winner at most *)

Lemma owns_line_winner (b : list ascii) (q : ascii) :
  q <> EMPTY -> owns_line b q -> winner b = true.
Proof.
  intros Hq (l0 & l1 & l2 & Hin & H0 & H1 & H2).
  unfold winner. apply existsb_exists. exists (l0, l1, l2).
  split; [exact Hin |]. apply line_won_aligned. exists q. auto.
Qed.

Lemma line_through_mark
    (before : list ascii) (index : nat) (p q : ascii) :
  winner before = false ->
  before !! index = Some EMPTY ->
  q <> EMPTY ->
  owns_line (<[index := p]> before) q ->
  q = p.
Proof.
  intros Hnone Hcell Hq (l0 & l1 & l2 & Hin & H0 & H1 & H2).
  assert (Hlt : (index < length before)%nat)
    by (apply lookup_lt_is_Some; eauto).
  destruct (decide (Z.to_nat l0 = index)) as [He0 | Hn0];
    [exact (cell_of_insert_eq _ _ _ _ _ Hlt He0 H0) |].
  destruct (decide (Z.to_nat l1 = index)) as [He1 | Hn1];
    [exact (cell_of_insert_eq _ _ _ _ _ Hlt He1 H1) |].
  destruct (decide (Z.to_nat l2 = index)) as [He2 | Hn2];
    [exact (cell_of_insert_eq _ _ _ _ _ Hlt He2 H2) |].
  exfalso.
  rewrite cell_of_insert_ne in H0, H1, H2 by assumption.
  assert (Hold : winner before = true).
  { apply (owns_line_winner before q Hq). exists l0, l1, l2. auto. }
  rewrite Hnone in Hold. discriminate Hold.
Qed.

(** X13.  In no state of a session do both players hold a line: a player
    whose mark fills a line is the current player, and the session is in
    the turn of the move that completed the line or has ended in Won. *)
Theorem single_winner (ph : phase) (w : World) (q : ascii) :
  reachable ph w ->
  q <> EMPTY ->
  owns_line (board_ (game w)) q ->
  q = current_player_ (game w) /\ (ph = MoveAccepted \/ ph = Won).
Proof.
  intros Hreach Hq Hline.
  pose proof (owns_line_winner _ q Hq Hline) as Hwin.
  pose proof (reachable_invariant _ _ Hreach) as (_ & _ & _ & Hinv).
  pose proof (reachable_facts _ _ Hreach) as (_ & _ & _ & Hfacts).
  assert (Hjust : just_marked (game w) -> q = current_player_ (game w)).
  { intros (before & index & Hnone & Hcell & _ & Hboard).
    rewrite Hboard in Hline. eapply line_through_mark; eauto. }
  destruct ph.
  - destruct Hinv as [_ Hno]. rewrite Hno in Hwin. discriminate Hwin.
  - split; [now apply Hjust | now left].
  - split; [now apply Hjust | now right].
  - destruct Hinv as (_ & Hno & _). rewrite Hno in Hwin. discriminate Hwin.
  - destruct Hinv as [_ Hno]. rewrite Hno in Hwin. discriminate Hwin.
Qed.

Lemma single_winner_witness :
  exists w : World,
    board_ (game w) = left_column_board /\
    MARK_X = current_player_ (game w).
Proof.
  destruct left_column_won as (w & Hreach & Hboard & _).
  exists w. split; [exact Hboard |].
  apply (single_winner Won w MARK_X Hreach); [discriminate |].
  rewrite Hboard. exists 0, 3, 6. repeat split. cbn. tauto.
Defined.

(** ** [prompt_move] with a line to read *)

Lemma append_empty_r (s : string) : s +:+ "" = s.
Proof.
  induction s as [| c s IH]; [reflexivity |].
  change (String c (s +:+ "") = String c s). now rewrite IH.
Qed.

(** X8.  When a line is there to read, [prompt_move] returns -- it neither
    exits nor touches a cell outside the array --, it has read exactly
    that line, it has printed the prompt for the current player before
    anything else, it never changes the player, and it changes the board
    only when it returns [true]. *)
Theorem prompt_move_one_line
    (w : World) (line : string) (rest : list string) :
  well_formed w ->
  cin w = line :: rest ->
  exists (moved : bool) (w' : World),
    prompt_move w = Ok moved w' /\
    cin w' = rest /\
    (exists printed,
       cout w'
         = cout w +:+ prompt_text (current_player_ (game w)) +:+ printed) /\
    current_player_ (game w') = current_player_ (game w) /\
    well_formed w' /\
    (moved = false -> game w' = game w).
Proof.
  intros Hw Hcin. rewrite (prompt_move_line w line rest Hcin).
  assert (Hmsg : forall msg,
            cout (said msg (consumed rest (prompted w)))
              = cout w +:+ prompt_text (current_player_ (game w))
                +:+ msg +:+ endl)
    by (intros msg; cbn; now rewrite !append_assoc).
  destruct (stoi line) as [choice | |].
  - rewrite place_mark_value by exact Hw.
    destruct (accepts _ choice).
    + do 2 eexists. split; [reflexivity |]. split; [reflexivity |].
      split; [exists ""; cbn; now rewrite append_empty_r |].
      split; [reflexivity |].
      split; [now apply well_formed_marked | discriminate].
    + do 2 eexists. split; [reflexivity |]. split; [reflexivity |].
      split; [eexists; apply Hmsg | auto].
  - do 2 eexists. split; [reflexivity |]. split; [reflexivity |].
    split; [eexists; apply Hmsg | auto].
  - do 2 eexists. split; [reflexivity |]. split; [reflexivity |].
    split; [eexists; apply Hmsg | auto].
Qed.

Lemma prompt_move_one_line_witness :
  exists (moved : bool) (w' : World),
    prompt_move (reset_world ["5"; "x"]) = Ok moved w' /\ cin w' = ["x"].
Proof.
  destruct (prompt_move_one_line (reset_world ["5"; "x"]) "5" ["x"])
    as (moved & w' & Hpm & Hcin & _); [reflexivity | reflexivity |].
  exists moved, w'. split; [exact Hpm | exact Hcin].
Defined.
